(** * lxe: the manager client adapter ([lxf/lxo]) and the CNI network plugin

  The first part embeds [LXO.StopContainer] of [lxf/lxo/container.go]:
  the retry loop, its requests to the container manager and the way it
  classifies the manager's errors.  The manager is an interface of the
  LXD client library; it is modelled as a state machine over an abstract
  world, and every call the adapter makes is recorded in a trace.

  The second part models the CNI network plugin, of which only the unit
  tests are available. *)

From stdpp Require Import base gmap strings list.
From Stdlib Require Import ZArith Lia Ascii DecimalString.

Local Open Scope Z_scope.

(** ** Go's [int]

  A signed 64-bit integer; arithmetic wraps around in two's complement. *)
Module GoInt.

Definition int_bits : Z := 64.
Definition min_int : Z := - 2 ^ (int_bits - 1).
Definition max_int : Z := 2 ^ (int_bits - 1) - 1.

Definition in_int (z : Z) : Prop := min_int <= z <= max_int.

(** the representative of [z] modulo [2 ^ int_bits] in the signed range *)
Definition wrap (z : Z) : Z := (z - min_int) mod 2 ^ int_bits + min_int.

(** [i++] *)
Definition incr (i : Z) : Z := wrap (i + 1).

End GoInt.

(** ** The manager client adapter: definitions *)
Module Lxo.

Import GoInt.

(** A Go [error] is seen through its [Error()] text only; [nil] is
    [None]. *)
Definition error : Type := string.

Definition not_found : error := "not found".
Definition already_stopped : error := "The container is already stopped".

(** [fmt.Errorf("failed to stop container %v, %v", id, err)] *)
Definition failed_to_stop (id : string) (err : error) : error :=
  "failed to stop container " +:+ id +:+ ", " +:+ err.

(** [api.ContainerStatePut], with the fields [StopContainer] sets *)
Record ContainerStatePut : Type := {
  Action : string;
  Timeout : Z;
  Force : bool
}.

(** The part of [lxd.ContainerServer] and [lxd.Operation] that
    [StopContainer] calls.  A call may change the manager's world; a
    failed submission gives an error and no operation. *)
Class ContainerServer (World Operation : Type) : Type := {
  UpdateContainerState :
    string -> ContainerStatePut -> string -> World -> (Operation + error) * World;
  Wait : Operation -> World -> option error * World
}.

(** what the adapter asked of the manager, and what it was told *)
Inductive event (Operation : Type) : Type :=
| EvUpdateContainerState
    (id : string) (req : ContainerStatePut) (ETag : string)
    (res : Operation + error)
| EvWait (op : Operation) (res : option error).

Arguments EvUpdateContainerState {Operation} id req ETag res.
Arguments EvWait {Operation} op res.

(** [Returned err]: the call returned [err]; [OutOfFuel]: the loop was cut
    off before it returned *)
Inductive outcome : Type :=
| Returned (err : option error)
| OutOfFuel.

Record run (World Operation : Type) : Type := {
  out : outcome;
  events : list (event Operation);
  world : World
}.

Arguments out {World Operation} r.
Arguments events {World Operation} r.
Arguments world {World Operation} r.

Definition prepend {World Operation : Type}
    (evs : list (event Operation)) (r : run World Operation) : run World Operation :=
  {| out := out r; events := evs ++ events r; world := world r |}.

(** [err != nil && err.Error() == "The container is already stopped"] *)
Definition is_already_stopped (err : option error) : bool :=
  match err with
  | Some e => String.eqb e already_stopped
  | None => false
  end.

Section Adapter.

Context {World Operation : Type} `{!ContainerServer World Operation}.

(** The loop [for i := 1; i <= retries; i++] of [StopContainer], from the
    counter value [i]; one unit of fuel is spent per attempt. *)
Fixpoint StopContainer_loop (fuel : nat) (id : string) (timeout retries : Z)
    (ETag : string) (i : Z) (lastErr : option error) (w : World)
    : run World Operation :=
  if i <=? retries then
    match fuel with
    | O => {| out := OutOfFuel; events := []; world := w |}
    | S fuel' =>
        let lxdReq :=
          {| Action := "stop"; Timeout := timeout; Force := i =? retries |} in
        match UpdateContainerState id lxdReq ETag w with
        | (inr err, w1) =>
            let ev := EvUpdateContainerState id lxdReq ETag (inr err) in
            if String.eqb err not_found then
              {| out := Returned None; events := [ev]; world := w1 |}
            else
              {| out := Returned (Some (failed_to_stop id err));
                 events := [ev]; world := w1 |}
        | (inl op, w1) =>
            let ev := EvUpdateContainerState id lxdReq ETag (inl op) in
            match Wait op w1 with
            | (err, w2) =>
                if is_already_stopped err then
                  {| out := Returned None;
                     events := [ev; EvWait op err]; world := w2 |}
                else
                  prepend [ev; EvWait op err]
                    (StopContainer_loop fuel' id timeout retries ETag
                       (incr i) err w2)
            end
        end
    end
  else {| out := Returned lastErr; events := []; world := w |}.

Definition StopContainer (fuel : nat) (id : string) (timeout retries : Z)
    (w : World) : run World Operation :=
  let ETag := "" in
  let lastErr : option error := None in
  StopContainer_loop fuel id timeout retries ETag 1 lastErr w.

End Adapter.

(** the request of the attempt whose counter is [i] *)
Definition request_at (timeout retries i : Z) : ContainerStatePut :=
  {| Action := "stop"; Timeout := timeout; Force := i =? retries |}.

(** *** Reading a trace *)

(** the submissions of a trace, in order: target, request and ETag *)
Fixpoint requests {Operation : Type} (tr : list (event Operation))
    : list (string * ContainerStatePut * string) :=
  match tr with
  | [] => []
  | EvUpdateContainerState id req ETag _ :: tr' => (id, req, ETag) :: requests tr'
  | EvWait _ _ :: tr' => requests tr'
  end.

(** the results of the awaited operations of a trace, in order *)
Fixpoint completions {Operation : Type} (tr : list (event Operation))
    : list (option error) :=
  match tr with
  | [] => []
  | EvUpdateContainerState _ _ _ _ :: tr' => completions tr'
  | EvWait _ res :: tr' => res :: completions tr'
  end.

(** an event after which the loop goes on to the next attempt: an accepted
    submission, or a completion other than "already stopped" *)
Definition non_terminal {Operation : Type} (ev : event Operation) : bool :=
  match ev with
  | EvUpdateContainerState _ _ _ (inl _) => true
  | EvUpdateContainerState _ _ _ (inr _) => false
  | EvWait _ res => negb (is_already_stopped res)
  end.

(** a trace made of attempts that ran to completion: each an accepted
    submission followed by the wait for its operation *)
Inductive awaited {Operation : Type} : list (event Operation) -> Prop :=
| awaited_nil : awaited []
| awaited_attempt id req ETag op res tr :
    awaited tr ->
    awaited (EvUpdateContainerState id req ETag (inl op) :: EvWait op res :: tr).

(** *** Managers to run the adapter against *)

(** One scripted answer to a submission: refuse it with an error, or accept
    it with an operation that completes with the given result. *)
Inductive answer : Type :=
| Refuse (err : error)
| Accept (completion : option error).

(** A manager that answers the submissions from a script, in order; once
    the script is used up the container is gone. *)
Definition scripted_update (id : string) (req : ContainerStatePut) (ETag : string)
    (w : list answer) : (option error + error) * list answer :=
  match w with
  | [] => (inr not_found, [])
  | Refuse err :: w' => (inr err, w')
  | Accept completion :: w' => (inl completion, w')
  end.

#[export] Instance scripted : ContainerServer (list answer) (option error) := {|
  UpdateContainerState := scripted_update;
  Wait := fun op w => (op, w)
|}.

(** A manager whose container never stops: every stop is accepted and
    completes with the same error. *)
Definition still_running : error := "container is still running".

#[export] Instance busy : ContainerServer unit unit := {|
  UpdateContainerState := fun _ _ _ w => (inl tt, w);
  Wait := fun _ w => (Some still_running, w)
|}.

(** A manager with a table of containers.  A stop of an absent container is
    refused with "not found"; a stop of a stopped container completes with
    "already stopped"; a stop of a running container stops it, unless the
    container is stubborn and the stop is not forced. *)
Inductive status : Type := Running | Stopped.

Record Lxd : Type := {
  containers : gmap string status;
  stubborn : gset string
}.

Definition graceful_timeout : error := "timed out waiting for the container to stop".

Definition lxd_update (id : string) (req : ContainerStatePut) (ETag : string)
    (w : Lxd) : (option error + error) * Lxd :=
  match containers w !! id with
  | None => (inr not_found, w)
  | Some Stopped => (inl (Some already_stopped), w)
  | Some Running =>
      if Force req || negb (bool_decide (id ∈ stubborn w)) then
        (inl None,
         {| containers := <[id := Stopped]> (containers w); stubborn := stubborn w |})
      else (inl (Some graceful_timeout), w)
  end.

#[export] Instance lxd : ContainerServer Lxd (option error) := {|
  UpdateContainerState := lxd_update;
  Wait := fun op w => (op, w)
|}.

(** one running container, which only a forced stop brings down *)
Definition one_stubborn : Lxd :=
  {| containers := {[ "c1" := Running ]}; stubborn := {[ "c1" ]} |}.

(** a container that the manager no longer runs: absent or stopped *)
Definition at_rest (id : string) (w : Lxd) : Prop :=
  containers w !! id <> Some Running.

End Lxo.

(** ** The CNI network plugin: definitions

    Of package [network] only the unit tests of the CNI plugin are among
    the sources.  The plugin itself is modelled from the specification
    and from what the tests pin down; the definitions that stand for
    absent code say so.  The JSON text of a CNI result is kept decoded:
    a stored result is the content that [json.Unmarshal] gives.  Of Go's
    package [net], the IPv4 side of [ParseCIDR] is written out; its IPv6
    parser and printer are an interface. *)
Module Network.

Definition error : Type := string.

(** *** Go's [net.ParseCIDR] and [net.IP.String] *)

(** an IP address: the four bytes of an IPv4 address, or the bytes of an
    IPv6 address *)
Inductive IP : Type :=
| IPv4 (b0 b1 b2 b3 : N)
| IPv6 (bytes : list N).

(** [len(ip)], counting an IPv4 address by its four bytes *)
Definition IP_len (ip : IP) : nat :=
  match ip with
  | IPv4 _ _ _ _ => 4
  | IPv6 bytes => length bytes
  end.

Definition is_digit (c : ascii) : bool :=
  ((48 <=? N_of_ascii c) && (N_of_ascii c <=? 57))%N.

(** [big] of package [net]: the bound of [dtoi] *)
Definition big : N := 0xFFFFFF.

(** The loop of [dtoi]: read decimal digits from the front of [s] into
    [n]; [seen] tells whether a digit was read.  The result is the number
    and what is left of [s]; none when no digit was read or the number
    reaches [big]. *)
Fixpoint dtoi_from (s : string) (n : N) (seen : bool) : option (N * string) :=
  match s with
  | String c s' =>
      if is_digit c then
        let n' := (n * 10 + (N_of_ascii c - 48))%N in
        if (big <=? n')%N then None else dtoi_from s' n' true
      else if seen then Some (n, s) else None
  | EmptyString => if seen then Some (n, s) else None
  end.

Definition dtoi (s : string) : option (N * string) := dtoi_from s 0%N false.

(** The loop of [parseIPv4] over the [count] bytes still to read; every
    byte but the first is preceded by a dot. *)
Fixpoint parse_bytes (count : nat) (first : bool) (s : string) : option (list N) :=
  match count with
  | O => match s with EmptyString => Some [] | _ => None end
  | S count' =>
      let after_dot :=
        if first then Some s
        else match s with
             | String "." s' => Some s'
             | _ => None
             end in
      match s, after_dot with
      | EmptyString, _ => None
      | _, None => None
      | _, Some s1 =>
          match dtoi s1 with
          | Some (n, s2) =>
              if (0xFF <? n)%N then None
              else match parse_bytes count' false s2 with
                   | Some bytes => Some (n :: bytes)
                   | None => None
                   end
          | None => None
          end
      end
  end.

Definition parseIPv4 (s : string) : option IP :=
  match parse_bytes 4 true s with
  | Some [a; b; c; d] => Some (IPv4 a b c d)
  | _ => None
  end.

(** [s[:i]] and [s[i+1:]] for the first [i] with [s[i] == '/'] *)
Fixpoint cut_at_slash (s : string) : option (string * string) :=
  match s with
  | EmptyString => None
  | String c s' =>
      if Ascii.eqb c "/" then Some (EmptyString, s')
      else match cut_at_slash s' with
           | Some (addr, mask) => Some (String c addr, mask)
           | None => None
           end
  end.

Fixpoint has_colon (s : string) : bool :=
  match s with
  | EmptyString => false
  | String c s' => Ascii.eqb c ":" || has_colon s'
  end.

(** Go's [parseIPv6] and the text [IP.String] gives for an IPv6 address
    are not written out.  What is used of them: [parseIPv6] accepts
    only texts with a colon in them (eight groups, or a double colon),
    and gives the sixteen bytes of the address. *)
Class GoIPv6 : Type := {
  parseIPv6 : string -> option (list N);
  IPv6_String : list N -> string;
  parseIPv6_colon : forall s bytes, parseIPv6 s = Some bytes -> has_colon s = true;
  parseIPv6_len : forall s bytes, parseIPv6 s = Some bytes -> length bytes = 16%nat
}.

(** [uitoa]: decimal digits of a number *)
Definition uitoa (n : N) : string := NilZero.string_of_uint (N.to_uint n).

Section ParseCIDR.

Context `{!GoIPv6}.

(** [net.ParseCIDR]: the address and the prefix length.  The address is
    tried as IPv4 first, then as IPv6; the prefix length is a decimal
    number that takes up all of the text after the slash and is at most
    the number of bits of the address. *)
Definition ParseCIDR (s : string) : option (IP * N) :=
  match cut_at_slash s with
  | None => None
  | Some (addr, mask) =>
      let '(iplen, ip) :=
        match parseIPv4 addr with
        | Some ip => (4%N, Some ip)
        | None => (16%N, IPv6 <$> parseIPv6 addr)
        end in
      match ip, dtoi mask with
      | Some ip, Some (n, EmptyString) =>
          if (8 * iplen <? n)%N then None else Some (ip, n)
      | _, _ => None
      end
  end.

(** [IP.String]: dotted decimal for an IPv4 address *)
Definition IP_String (ip : IP) : string :=
  match ip with
  | IPv4 b0 b1 b2 b3 =>
      uitoa b0 +:+ "." +:+ uitoa b1 +:+ "." +:+ uitoa b2 +:+ "." +:+ uitoa b3
  | IPv6 bytes => IPv6_String bytes
  end.

End ParseCIDR.

(** *** Shapes of text, to state what the parsers accept *)

Fixpoint all_digits (s : string) : bool :=
  match s with
  | EmptyString => true
  | String c s' => is_digit c && all_digits s'
  end.

Fixpoint no_slash (s : string) : bool :=
  match s with
  | EmptyString => true
  | String c s' => negb (Ascii.eqb c "/") && no_slash s'
  end.

(** the text does not go on with a digit *)
Definition digit_free_front (s : string) : bool :=
  match s with
  | EmptyString => true
  | String c _ => negb (is_digit c)
  end.

Fixpoint no_dot (s : string) : bool :=
  match s with
  | EmptyString => true
  | String c s' => negb (Ascii.eqb c ".") && no_dot s'
  end.

(** the number that the digits [s] add to [n], read from the left *)
Fixpoint decimal_from (s : string) (n : N) : N :=
  match s with
  | EmptyString => n
  | String c s' => decimal_from s' (n * 10 + (N_of_ascii c - 48))%N
  end.

Definition decimal (s : string) : N := decimal_from s 0%N.

(** [ds] is a decimal numeral, with leading zeros or without, for [n] *)
Definition reads (ds : string) (n : N) : Prop :=
  ds <> "" /\ all_digits ds = true /\ decimal ds = n.

(** four texts joined by dots *)
Definition dotted (sa sb sc sd : string) : string :=
  sa +:+ "." +:+ sb +:+ "." +:+ sc +:+ "." +:+ sd.

(** The texts in CIDR notation: an address, a slash, and a decimal prefix
    length; the address is four decimal bytes joined by dots with a
    prefix length of 32 at most, or else has a colon in it (the only
    texts the IPv6 parser accepts) with a prefix length of 128 at
    most. *)
Definition cidr_text (s : string) : Prop :=
  exists addr mask n,
    s = addr +:+ "/" +:+ mask
    /\ no_slash addr = true
    /\ reads mask n
    /\ ((exists sa sb sc sd a b c d,
           addr = dotted sa sb sc sd
           /\ reads sa a /\ reads sb b /\ reads sc c /\ reads sd d
           /\ (a <= 255)%N /\ (b <= 255)%N /\ (c <= 255)%N /\ (d <= 255)%N
           /\ (n <= 32)%N)
        \/ (has_colon addr = true /\ (n <= 128)%N)).

(** [n] prints as digits, at least one, that [dtoi] reads back as [n] *)
Definition prints_and_reads (n : N) : bool :=
  all_digits (uitoa n)
  && match uitoa n with EmptyString => false | _ => true end
  && match dtoi (uitoa n) with
     | Some (v, EmptyString) => (v =? n)%N
     | _ => false
     end.

(** *** libcni *)

(** [libcni.RuntimeConf], with the fields the plugin sets *)
Record RuntimeConf : Type := {
  ContainerID : string;
  NetNS : string;
  IfName : string;
  Args : list (string * string)
}.

(** [libcni.NetworkConfigList], by name and version *)
Record NetworkConfigList : Type := {
  Name : string;
  ListCNIVersion : string
}.

(** one entry of the [interfaces] of a CNI result (spec v0.4.0) *)
Record CNIInterface : Type := {
  IfaceName : string;
  Mac : string;
  Sandbox : string
}.

(** one entry of the [ips] of a CNI result (spec v0.4.0) *)
Record IPConfig : Type := {
  Version : string;
  Interface : option Z;
  Address : string;
  Gateway : string
}.

(** a CNI result, decoded; a Go [nil] result is [None] where one is
    optional *)
Record CNIResult : Type := {
  CNIVersion : string;
  Interfaces : list CNIInterface;
  IPs : list IPConfig
}.

(** [libcni.CNI]: the two calls of the plugin; a call may record itself in
    the world of the implementation *)
Class CNI (World : Type) : Type := {
  AddNetworkList :
    option NetworkConfigList -> RuntimeConf -> World
    -> (option CNIResult * option error) * World;
  DelNetworkList :
    option NetworkConfigList -> RuntimeConf -> World -> option error * World
}.

(** [libcnifake.FakeCNI]: returns what it was told to and records the
    arguments of every call *)
Record FakeCNI : Type := {
  addNetworkListReturns : option CNIResult * option error;
  delNetworkListReturns : option error;
  addNetworkListArgs : list (option NetworkConfigList * RuntimeConf);
  delNetworkListArgs : list (option NetworkConfigList * RuntimeConf)
}.

#[export] Instance fakeCNI : CNI FakeCNI := {|
  AddNetworkList := fun netList rt fake =>
    (addNetworkListReturns fake,
     {| addNetworkListReturns := addNetworkListReturns fake;
        delNetworkListReturns := delNetworkListReturns fake;
        addNetworkListArgs := addNetworkListArgs fake ++ [(netList, rt)];
        delNetworkListArgs := delNetworkListArgs fake |});
  DelNetworkList := fun netList rt fake =>
    (delNetworkListReturns fake,
     {| addNetworkListReturns := addNetworkListReturns fake;
        delNetworkListReturns := delNetworkListReturns fake;
        addNetworkListArgs := addNetworkListArgs fake;
        delNetworkListArgs := delNetworkListArgs fake ++ [(netList, rt)] |})
|}.

(** *** The plugin *)

(** the default interface name, "eth0" by the specification *)
Definition DefaultInterface : string := "eth0".

Definition ErrNotImplemented : error := "not implemented".
Definition ErrNoNetworkConfig : error := "no valid network configuration found".
Definition ErrMissingIPs : error := "result is missing ips".
Definition ErrInvalidIP : error := "invalid CIDR address".

Record ConfCNI : Type := {
  BinPath : string;
  ConfPath : string;
  NetnsPath : string
}.

(** [cniPlugin]; [netConfig] stands for what the scan of the
    configuration directory finds *)
Record cniPlugin : Type := {
  conf : ConfCNI;
  netConfig : option NetworkConfigList
}.

Record cniPodNetwork : Type := {
  plugin : cniPlugin;
  netList : option NetworkConfigList;
  runtimeConf : RuntimeConf
}.

Record cniContainerNetwork : Type := {
  pod : cniPodNetwork;
  cid : string
}.

(** [Properties.Data] is a [map[string]string]; the one key of the plugin,
    "result", holds the JSON text of a CNI result, kept decoded here
    ([None] for the text [null]) *)
Record Properties : Type := {
  Data : gmap string (option CNIResult)
}.

Record PropertiesRunning : Type := {
  Props : Properties;
  Pid : N
}.

(** what [WhenStarted] hands back: the properties to keep, with the raw
    result among them, and the IPs and the interface list extracted from
    the result *)
Record Result : Type := {
  ResultData : gmap string (option CNIResult);
  ResultIPs : list IP;
  ResultInterfaces : list CNIInterface
}.

Record Status : Type := {
  StatusIPs : list IP
}.

(** Modelled from the spec: the body of [cniPlugin.getCNIRuntimeConf] is
    absent.  The template has container ID = pod ID, interface name
    "eth0", an empty netns and no arguments; this is also the value that
    [Test_cniPlugin_getCNIRuntimeConf] expects. *)
Definition getCNIRuntimeConf (p : cniPlugin) (podID : string) : RuntimeConf :=
  {| ContainerID := podID; NetNS := ""; IfName := DefaultInterface; Args := [] |}.

(** Modelled from the spec: the body of [cniPlugin.PodNetwork] is absent.
    It resolves the network list once and caches the runtime-conf
    template, to which the extra arguments supplied are added. *)
Definition PodNetwork (p : cniPlugin) (podID : string)
    (extraArgs : list (string * string)) : cniPodNetwork + error :=
  match netConfig p with
  | None => inr ErrNoNetworkConfig
  | Some nl =>
      let rt := getCNIRuntimeConf p podID in
      inl {| plugin := p;
             netList := Some nl;
             runtimeConf :=
               {| ContainerID := ContainerID rt; NetNS := NetNS rt;
                  IfName := IfName rt; Args := Args rt ++ extraArgs |} |}
  end.

(** Modelled from the spec: the body of [cniPodNetwork.ContainerNetwork]
    is absent.  It binds the pod-level handle to a container. *)
Definition ContainerNetwork (s : cniPodNetwork) (containerID : string)
    : cniContainerNetwork + error :=
  inl {| pod := s; cid := containerID |}.

(** Modelled from the spec: the body of [cniPlugin.UpdateRuntimeConfig] is
    absent.  The CNI plugin cannot accept a dynamic CIDR and fails. *)
Definition UpdateRuntimeConfig (p : cniPlugin) (podCIDR : option string)
    : option error :=
  Some ErrNotImplemented.

Section Parsing.

Context `{!GoIPv6}.

(** Modelled from the spec: the loop of [cniPodNetwork.ips] over the
    entries of a result is absent.  Every address is parsed as CIDR and
    its address portion is exposed; a malformed address is an error. *)
Fixpoint parse_addresses (entries : list IPConfig) : list IP + error :=
  match entries with
  | [] => inl []
  | e :: entries' =>
      match ParseCIDR (Address e) with
      | None => inr ErrInvalidIP
      | Some (ip, _) =>
          match parse_addresses entries' with
          | inl ips => inl (ip :: ips)
          | inr err => inr err
          end
      end
  end.

(** Modelled from the spec: the body of [cniPodNetwork.ips] is absent.
    Missing IPs are an error; otherwise the IPs are those of the entries,
    in order of appearance. *)
Definition ips (raw : option CNIResult) : list IP + error :=
  match raw with
  | None => inr ErrMissingIPs
  | Some r =>
      match IPs r with
      | [] => inr ErrMissingIPs
      | entries => parse_addresses entries
      end
  end.

(** Modelled from the spec: the body of [cniPodNetwork.Status] is absent.
    It re-parses the stored result and returns the current IPs. *)
Definition PodStatus (s : cniPodNetwork) (prop : PropertiesRunning) : Status + error :=
  match ips (default None (Data (Props prop) !! "result")) with
  | inl addrs => inl {| StatusIPs := addrs |}
  | inr err => inr err
  end.

End Parsing.

Section Actions.

Context {World : Type} `{!CNI World} `{!GoIPv6}.

(** Modelled from the spec: the body of [cniPodNetwork.setup] is absent.
    A runtime conf is allocated from the template with the netns of the
    action, CNI ADD is invoked with the network list, and the raw result
    is returned.  [Test_cniPodNetwork_setup] has an ADD that returns no
    result and no error succeed. *)
Definition setup (s : cniPodNetwork) (netns : string) (w : World)
    : (option CNIResult + error) * World :=
  let rt := {| ContainerID := ContainerID (runtimeConf s); NetNS := netns;
               IfName := IfName (runtimeConf s); Args := Args (runtimeConf s) |} in
  match AddNetworkList (netList s) rt w with
  | ((_, Some err), w1) => (inr err, w1)
  | ((result, None), w1) => (inl result, w1)
  end.

(** Modelled from the spec: the body of [cniPodNetwork.teardown] is absent.
    CNI DEL is invoked with the cached runtime conf. *)
Definition teardown (s : cniPodNetwork) (w : World) : option error * World :=
  DelNetworkList (netList s) (runtimeConf s) w.

(** Modelled from the spec: the body of [cniContainerNetwork.WhenStarted]
    is absent.  The netns of the runtime conf is that of the process,
    [/proc/<pid>/ns/net]; CNI ADD is invoked with the network list; the
    raw result is stored as a property; the IPs and the interface list
    are extracted and returned.  A result with zero IPs is an error.
    (The specification is followed where
    [Test_cniContainerNetwork_WhenStarted], which feeds a result with an
    empty list of IPs, expects no error.) *)
Definition WhenStarted (c : cniContainerNetwork) (prop : PropertiesRunning)
    (w : World) : (Result + error) * World :=
  match setup (pod c) ("/proc/" +:+ uitoa (Pid prop) +:+ "/ns/net") w with
  | (inr err, w1) => (inr err, w1)
  | (inl raw, w1) =>
      match ips raw with
      | inr err => (inr err, w1)
      | inl addrs =>
          (inl {| ResultData := {[ "result" := raw ]};
                  ResultIPs := addrs;
                  ResultInterfaces :=
                    match raw with Some r => Interfaces r | None => [] end |},
           w1)
      end
  end.

(** Modelled from the spec: the body of [cniContainerNetwork.WhenDeleted]
    is absent.  CNI DEL is invoked with the same runtime conf. *)
Definition WhenDeleted (c : cniContainerNetwork) (prop : Properties) (w : World)
    : option error * World :=
  teardown (pod c) w.

End Actions.

(** *** The fixtures of the unit tests *)

Definition testCNIPlugin : cniPlugin :=
  {| conf := {| BinPath := "/tmp/cni/opt/cni/bin";
                ConfPath := "/tmp/cni/etc/cni/net.d";
                NetnsPath := "/tmp/cni/run/netns" |};
     netConfig := Some {| Name := "lo"; ListCNIVersion := "0.4.0" |} |}.

Definition testCNIPodNet : cniPodNetwork :=
  {| plugin := testCNIPlugin;
     netList := None;
     runtimeConf := getCNIRuntimeConf testCNIPlugin "foo" |}.

Definition testCNIContNet : cniContainerNetwork :=
  {| pod := testCNIPodNet; cid := "bar" |}.

Definition newFake : FakeCNI :=
  {| addNetworkListReturns := (None, None);
     delNetworkListReturns := None;
     addNetworkListArgs := [];
     delNetworkListArgs := [] |}.

Definition AddNetworkListReturns (fake : FakeCNI)
    (result : option CNIResult) (err : option error) : FakeCNI :=
  {| addNetworkListReturns := (result, err);
     delNetworkListReturns := delNetworkListReturns fake;
     addNetworkListArgs := addNetworkListArgs fake;
     delNetworkListArgs := delNetworkListArgs fake |}.

(** properties that hold the given result under "result" *)
Definition stored (r : option CNIResult) : PropertiesRunning :=
  {| Props := {| Data := {[ "result" := r ]} |}; Pid := 0 |}.

(** A stand-in for Go's IPv6 parser and printer, to run the definitions:
    it knows the loopback address only. *)
Definition loopback6 : list N := replicate 15 0%N ++ [1%N].

Definition parse_loopback (s : string) : option (list N) :=
  if String.eqb s "::1" then Some loopback6 else None.

Lemma parse_loopback_colon s bytes :
  parse_loopback s = Some bytes -> has_colon s = true.
Proof.
  unfold parse_loopback. destruct (String.eqb_spec s "::1") as [->|]; [|done].
  by intros _.
Qed.

Lemma parse_loopback_len s bytes :
  parse_loopback s = Some bytes -> length bytes = 16%nat.
Proof.
  unfold parse_loopback. destruct (String.eqb s "::1"); [|done].
  by intros [= <-].
Qed.

#[export] Instance loopback_only : GoIPv6 := {|
  parseIPv6 := parse_loopback;
  IPv6_String := fun _ => "::1";
  parseIPv6_colon := parse_loopback_colon;
  parseIPv6_len := parse_loopback_len
|}.

(** the entry of [Test_cniPodNetwork_Status_Simple] *)
Definition simple_entry : IPConfig :=
  {| Version := "4"; Interface := Some 2; Address := "10.22.0.64/16";
     Gateway := "10.22.0.1" |}.

(** an entry with nothing but an address *)
Definition address_only (a : string) : IPConfig :=
  {| Version := ""; Interface := None; Address := a; Gateway := "" |}.

End Network.

(** ** The manager client adapter: the other operations

    [StartContainer], [CreateContainer], [UpdateContainer],
    [DeleteContainer] and [ExecContainer] of [lxf/lxo/container.go], and
    what a caller sees of a series of adapter calls. *)
Module LxoOps.

Import Lxo.

(** The further calls of [lxd.ContainerServer] that the adapter makes.
    The payloads ([api.ContainersPost], [api.ContainerPut],
    [api.ContainerExecPost], [*lxd.ContainerExecArgs]) are types of the
    LXD API and stay abstract.  A refused [ExecContainer] gives the
    operation value that came with the error, which may be [nil]. *)
Class ContainerOps
    (World Operation ContainersPost ContainerPut ContainerExecPost ContainerExecArgs : Type)
    : Type := {
  server_CreateContainer :
    ContainersPost -> World -> (Operation + error) * World;
  server_UpdateContainer :
    string -> ContainerPut -> string -> World -> (Operation + error) * World;
  server_DeleteContainer :
    string -> World -> (Operation + error) * World;
  server_ExecContainer :
    string -> ContainerExecPost -> ContainerExecArgs -> World
    -> (Operation + (option Operation * error)) * World
}.

Section Operations.

Context {World Operation ContainersPost ContainerPut ContainerExecPost ContainerExecArgs : Type}.
Context `{!ContainerServer World Operation}.
Context `{!ContainerOps World Operation
             ContainersPost ContainerPut ContainerExecPost ContainerExecArgs}.

(** a call of the adapter to the manager, with the answer *)
Inductive call : Type :=
| CallUpdateContainerState
    (id : string) (req : ContainerStatePut) (ETag : string) (res : Operation + error)
| CallCreateContainer (container : ContainersPost) (res : Operation + error)
| CallUpdateContainer
    (id : string) (container : ContainerPut) (ETag : string) (res : Operation + error)
| CallDeleteContainer (id : string) (res : Operation + error)
| CallExecContainer
    (id : string) (containerExec : ContainerExecPost) (execArgs : ContainerExecArgs)
    (res : Operation + (option Operation * error))
| CallWait (op : Operation) (res : option error).

(** what one call of an adapter operation gives: the error it returns,
    the calls it made and the world it leaves *)
Record shot : Type := {
  shot_err : option error;
  shot_calls : list call;
  shot_world : World
}.

(** [ExecContainer] hands back the operation as well *)
Record exec_shot : Type := {
  exec_op : option Operation;
  exec_err : option error;
  exec_calls : list call;
  exec_world : World
}.

Definition StartContainer (id : string) (w : World) : shot :=
  let ETag := "" in
  let lxdReq := {| Action := "start"; Timeout := -1; Force := false |} in
  match UpdateContainerState id lxdReq ETag w with
  | (inr err, w1) =>
      {| shot_err := Some err;
         shot_calls := [CallUpdateContainerState id lxdReq ETag (inr err)];
         shot_world := w1 |}
  | (inl op, w1) =>
      match Wait op w1 with
      | (err, w2) =>
          {| shot_err := err;
             shot_calls := [CallUpdateContainerState id lxdReq ETag (inl op);
                            CallWait op err];
             shot_world := w2 |}
      end
  end.

Definition CreateContainer (container : ContainersPost) (w : World) : shot :=
  match server_CreateContainer container w with
  | (inr err, w1) =>
      {| shot_err := Some err;
         shot_calls := [CallCreateContainer container (inr err)];
         shot_world := w1 |}
  | (inl op, w1) =>
      match Wait op w1 with
      | (err, w2) =>
          {| shot_err := err;
             shot_calls := [CallCreateContainer container (inl op); CallWait op err];
             shot_world := w2 |}
      end
  end.

Definition UpdateContainer (id : string) (container : ContainerPut) (ETag : string)
    (w : World) : shot :=
  match server_UpdateContainer id container ETag w with
  | (inr err, w1) =>
      {| shot_err := Some err;
         shot_calls := [CallUpdateContainer id container ETag (inr err)];
         shot_world := w1 |}
  | (inl op, w1) =>
      match Wait op w1 with
      | (err, w2) =>
          {| shot_err := err;
             shot_calls := [CallUpdateContainer id container ETag (inl op);
                            CallWait op err];
             shot_world := w2 |}
      end
  end.

Definition DeleteContainer (id : string) (w : World) : shot :=
  match server_DeleteContainer id w with
  | (inr err, w1) =>
      {| shot_err := Some err;
         shot_calls := [CallDeleteContainer id (inr err)];
         shot_world := w1 |}
  | (inl op, w1) =>
      match Wait op w1 with
      | (err, w2) =>
          {| shot_err := err;
             shot_calls := [CallDeleteContainer id (inl op); CallWait op err];
             shot_world := w2 |}
      end
  end.

Definition ExecContainer (id : string) (containerExec : ContainerExecPost)
    (execArgs : ContainerExecArgs) (w : World) : exec_shot :=
  match server_ExecContainer id containerExec execArgs w with
  | (inr (op, err), w1) =>
      {| exec_op := op; exec_err := Some err;
         exec_calls := [CallExecContainer id containerExec execArgs (inr (op, err))];
         exec_world := w1 |}
  | (inl op, w1) =>
      match Wait op w1 with
      | (err, w2) =>
          {| exec_op := Some op; exec_err := err;
             exec_calls := [CallExecContainer id containerExec execArgs (inl op);
                            CallWait op err];
             exec_world := w2 |}
      end
  end.

(** *** Reading the trace of [StopContainer] *)

(** What [StopContainer] returns after the manager's answer [ev], when
    that answer is the last one of the call: a refusal as "not found"
    and a completion as "already stopped" count as success, another
    refusal is wrapped, another completion is returned as it is. *)
Definition answer_verdict (id : string) (ev : event Operation) : option error :=
  match ev with
  | EvUpdateContainerState _ _ _ (inr err) =>
      if String.eqb err not_found then None else Some (failed_to_stop id err)
  | EvUpdateContainerState _ _ _ (inl _) => None
  | EvWait _ res => if is_already_stopped res then None else res
  end.

(** the verdict of the last answer of a trace; [d] when there is none *)
Definition verdict (id : string) (d : option error) (tr : list (event Operation))
    : option error :=
  match last tr with
  | Some ev => answer_verdict id ev
  | None => d
  end.

(** a submission of [StopContainer]: a stop of [id] with [timeout] and an
    empty ETag *)
Definition stop_of (id : string) (timeout : Z) (ev : event Operation) : Prop :=
  match ev with
  | EvUpdateContainerState id' req ETag _ =>
      id' = id /\ ETag = "" /\ Action req = "stop" /\ Timeout req = timeout
  | EvWait _ _ => True
  end.

(** *** A series of adapter calls *)

Definition call_of_event (ev : event Operation) : call :=
  match ev with
  | EvUpdateContainerState id req ETag res => CallUpdateContainerState id req ETag res
  | EvWait op res => CallWait op res
  end.

(** the operation that a submission answered without an error handed
    out; none for a submission answered with an error (an [ExecContainer]
    one may come with an operation: it goes to the caller), and none for
    a wait *)
Definition accepted (c : call) : option Operation :=
  match c with
  | CallUpdateContainerState _ _ _ res
  | CallCreateContainer _ res
  | CallUpdateContainer _ _ _ res
  | CallDeleteContainer _ res =>
      match res with inl op => Some op | inr _ => None end
  | CallExecContainer _ _ _ res =>
      match res with inl op => Some op | inr _ => None end
  | CallWait _ _ => None
  end.

Definition is_wait (c : call) : bool :=
  match c with
  | CallWait _ _ => true
  | _ => false
  end.

(** a trace made of submissions answered with an error, each on its own,
    and of submissions answered without one, each followed at once by the
    wait for the operation it handed out *)
Inductive lockstep : list call -> Prop :=
| lockstep_nil : lockstep []
| lockstep_refused c tr :
    is_wait c = false -> accepted c = None -> lockstep tr -> lockstep (c :: tr)
| lockstep_awaited c op res tr :
    accepted c = Some op -> lockstep tr ->
    lockstep (c :: CallWait op res :: tr).

(** one use of the adapter *)
Inductive command : Type :=
| CmdStopContainer (id : string) (timeout retries : Z)
| CmdStartContainer (id : string)
| CmdCreateContainer (container : ContainersPost)
| CmdUpdateContainer (id : string) (container : ContainerPut) (ETag : string)
| CmdDeleteContainer (id : string)
| CmdExecContainer
    (id : string) (containerExec : ContainerExecPost) (execArgs : ContainerExecArgs).

(** the calls and the world of one command; [fuel] is that of
    [StopContainer] *)
Definition run_command (fuel : nat) (cmd : command) (w : World) : list call * World :=
  match cmd with
  | CmdStopContainer id timeout retries =>
      let r := StopContainer fuel id timeout retries w in
      (call_of_event <$> events r, world r)
  | CmdStartContainer id =>
      let r := StartContainer id w in (shot_calls r, shot_world r)
  | CmdCreateContainer container =>
      let r := CreateContainer container w in (shot_calls r, shot_world r)
  | CmdUpdateContainer id container ETag =>
      let r := UpdateContainer id container ETag w in (shot_calls r, shot_world r)
  | CmdDeleteContainer id =>
      let r := DeleteContainer id w in (shot_calls r, shot_world r)
  | CmdExecContainer id containerExec execArgs =>
      let r := ExecContainer id containerExec execArgs w in (exec_calls r, exec_world r)
  end.

(** a caller that uses the adapter for one command after the other,
    whatever each returns *)
Fixpoint run_commands (fuel : nat) (cmds : list command) (w : World)
    : list call * World :=
  match cmds with
  | [] => ([], w)
  | cmd :: cmds' =>
      let '(tr, w1) := run_command fuel cmd w in
      let '(tr', w2) := run_commands fuel cmds' w1 in
      (tr ++ tr', w2)
  end.

End Operations.

Arguments CallUpdateContainerState {_ _ _ _ _} id req ETag res.
Arguments CallCreateContainer {_ _ _ _ _} container res.
Arguments CallUpdateContainer {_ _ _ _ _} id container ETag res.
Arguments CallDeleteContainer {_ _ _ _ _} id res.
Arguments CallExecContainer {_ _ _ _ _} id containerExec execArgs res.
Arguments CallWait {_ _ _ _ _} op res.
Arguments call : clear implicits.
Arguments shot : clear implicits.
Arguments exec_shot : clear implicits.
Arguments command : clear implicits.

(** the scripted manager answers every kind of submission from its
    script; a refused exec comes without an operation *)
Definition scripted_exec (w : list answer)
    : (option error + (option (option error) * error)) * list answer :=
  match w with
  | [] => (inr (None, not_found), [])
  | Refuse err :: w' => (inr (None, err), w')
  | Accept completion :: w' => (inl completion, w')
  end.

#[export] Instance scripted_ops
    : ContainerOps (list answer) (option error) string string string string := {|
  server_CreateContainer := fun container w => scripted_update "" (request_at 0 0 0) "" w;
  server_UpdateContainer := fun id container ETag w =>
    scripted_update id (request_at 0 0 0) ETag w;
  server_DeleteContainer := fun id w => scripted_update id (request_at 0 0 0) "" w;
  server_ExecContainer := fun id containerExec execArgs w => scripted_exec w
|}.

End LxoOps.

(** ** Go's [int]: facts *)
Module GoIntFacts.

Import GoInt.

Lemma min_int_val : min_int = -9223372036854775808.
Proof. reflexivity. Qed.

Lemma max_int_val : max_int = 9223372036854775807.
Proof. reflexivity. Qed.

Lemma pow_bits_val : 2 ^ int_bits = 18446744073709551616.
Proof. reflexivity. Qed.

Lemma wrap_in_int z : in_int (wrap z).
Proof.
  unfold in_int, wrap. rewrite max_int_val, min_int_val, pow_bits_val.
  pose proof (Z.mod_pos_bound (z - -9223372036854775808) 18446744073709551616).
  lia.
Qed.

Lemma wrap_id z : in_int z -> wrap z = z.
Proof.
  unfold in_int, wrap. rewrite max_int_val, min_int_val, pow_bits_val.
  intros Hz. rewrite Z.mod_small; lia.
Qed.

Lemma incr_below_max i : min_int <= i < max_int -> incr i = i + 1.
Proof. intros Hi. apply wrap_id. unfold in_int. lia. Qed.

Lemma incr_max_int : incr max_int = min_int.
Proof. reflexivity. Qed.

Lemma incr_in_int i : in_int (incr i).
Proof. apply wrap_in_int. Qed.

End GoIntFacts.

(** ** The manager client adapter: [StopContainer] *)
Module StopContainerSpec.

Import GoInt GoIntFacts Lxo.

Section Loop.

Context {World Operation : Type} `{!ContainerServer World Operation}.

Implicit Types (w : World) (fuel : nat) (i timeout retries : Z).
Implicit Types (lastErr : option error) (id ETag : string).

(** the loop is over once the counter has passed [retries] *)
Lemma loop_exit fuel id timeout retries ETag i lastErr w :
  retries < i ->
  StopContainer_loop fuel id timeout retries ETag i lastErr w
  = {| out := Returned lastErr; events := []; world := w |}.
Proof.
  intros Hi. apply Z.leb_gt in Hi. destruct fuel; simpl; by rewrite Hi.
Qed.

(** without fuel an attempt that is due is not made *)
Lemma loop_no_fuel id timeout retries ETag i lastErr w :
  i <= retries ->
  StopContainer_loop 0 id timeout retries ETag i lastErr w
  = {| out := OutOfFuel; events := []; world := w |}.
Proof. intros Hi. apply Z.leb_le in Hi. simpl. by rewrite Hi. Qed.

(** an attempt whose submission is refused *)
Lemma loop_refused fuel id timeout retries ETag i lastErr w err w1 :
  i <= retries ->
  UpdateContainerState id
    {| Action := "stop"; Timeout := timeout; Force := i =? retries |} ETag w
  = (inr err, w1) ->
  StopContainer_loop (S fuel) id timeout retries ETag i lastErr w
  = {| out := if String.eqb err not_found then Returned None
              else Returned (Some (failed_to_stop id err));
       events := [EvUpdateContainerState id
                    {| Action := "stop"; Timeout := timeout; Force := i =? retries |}
                    ETag (inr err)];
       world := w1 |}.
Proof.
  intros Hi Hu. apply Z.leb_le in Hi. simpl. rewrite Hi, Hu.
  by destruct (String.eqb err not_found).
Qed.

(** an attempt whose operation completes with "already stopped" *)
Lemma loop_stopped fuel id timeout retries ETag i lastErr w op w1 err w2 :
  i <= retries ->
  UpdateContainerState id
    {| Action := "stop"; Timeout := timeout; Force := i =? retries |} ETag w
  = (inl op, w1) ->
  Wait op w1 = (err, w2) ->
  is_already_stopped err = true ->
  StopContainer_loop (S fuel) id timeout retries ETag i lastErr w
  = {| out := Returned None;
       events := [EvUpdateContainerState id
                    {| Action := "stop"; Timeout := timeout; Force := i =? retries |}
                    ETag (inl op);
                  EvWait op err];
       world := w2 |}.
Proof.
  intros Hi Hu Hw Hs. apply Z.leb_le in Hi. simpl. by rewrite Hi, Hu, Hw, Hs.
Qed.

(** an attempt whose operation completes otherwise: the loop goes on, with
    the completion as the last error *)
Lemma loop_again fuel id timeout retries ETag i lastErr w op w1 err w2 :
  i <= retries ->
  UpdateContainerState id
    {| Action := "stop"; Timeout := timeout; Force := i =? retries |} ETag w
  = (inl op, w1) ->
  Wait op w1 = (err, w2) ->
  is_already_stopped err = false ->
  StopContainer_loop (S fuel) id timeout retries ETag i lastErr w
  = prepend
      [EvUpdateContainerState id
         {| Action := "stop"; Timeout := timeout; Force := i =? retries |}
         ETag (inl op);
       EvWait op err]
      (StopContainer_loop fuel id timeout retries ETag (incr i) err w2).
Proof.
  intros Hi Hu Hw Hs. apply Z.leb_le in Hi. simpl. by rewrite Hi, Hu, Hw, Hs.
Qed.

End Loop.

(** *** Induction over the attempts of one call *)
Section Attempts.

Context {World Operation : Type} `{!ContainerServer World Operation}.

Variables (id : string) (timeout retries : Z) (ETag : string).

Variable P : Z -> option error -> World -> run World Operation -> Prop.

Hypothesis P_exit : forall i lastErr w,
  retries < i ->
  P i lastErr w {| out := Returned lastErr; events := []; world := w |}.

Hypothesis P_no_fuel : forall i lastErr w,
  i <= retries ->
  P i lastErr w {| out := OutOfFuel; events := []; world := w |}.

Hypothesis P_refused : forall i lastErr w err w1,
  i <= retries ->
  UpdateContainerState id (request_at timeout retries i) ETag w = (inr err, w1) ->
  P i lastErr w
    {| out := if String.eqb err not_found then Returned None
              else Returned (Some (failed_to_stop id err));
       events := [EvUpdateContainerState id (request_at timeout retries i) ETag (inr err)];
       world := w1 |}.

Hypothesis P_stopped : forall i lastErr w op w1 err w2,
  i <= retries ->
  UpdateContainerState id (request_at timeout retries i) ETag w = (inl op, w1) ->
  Wait op w1 = (err, w2) ->
  is_already_stopped err = true ->
  P i lastErr w
    {| out := Returned None;
       events := [EvUpdateContainerState id (request_at timeout retries i) ETag (inl op);
                  EvWait op err];
       world := w2 |}.

Hypothesis P_again : forall i lastErr w op w1 err w2 r,
  i <= retries ->
  UpdateContainerState id (request_at timeout retries i) ETag w = (inl op, w1) ->
  Wait op w1 = (err, w2) ->
  is_already_stopped err = false ->
  P (incr i) err w2 r ->
  P i lastErr w
    (prepend [EvUpdateContainerState id (request_at timeout retries i) ETag (inl op);
              EvWait op err] r).

Lemma loop_ind fuel : forall i lastErr w,
  P i lastErr w (StopContainer_loop fuel id timeout retries ETag i lastErr w).
Proof.
  induction fuel as [|fuel IH]; intros i lastErr w;
    destruct (Z.leb_spec i retries) as [Hi|Hi];
    try (rewrite loop_exit by done; by apply P_exit).
  - rewrite loop_no_fuel by done. by apply P_no_fuel.
  - destruct (UpdateContainerState id (request_at timeout retries i) ETag w) as [[op|err] w1] eqn:Hu.
    + destruct (Wait op w1) as [err w2] eqn:Hw.
      destruct (is_already_stopped err) eqn:Hs.
      * erewrite loop_stopped by done. by eapply P_stopped.
      * erewrite loop_again by done. eapply P_again; eauto.
    + erewrite loop_refused by done. by apply P_refused.
Qed.

End Attempts.

(** *** What a call does, read off its trace *)
Section Calls.

Context {World Operation : Type} `{!ContainerServer World Operation}.

Implicit Types (w : World) (fuel k : nat) (i timeout retries : Z).
Implicit Types (lastErr : option error) (id ETag : string).

Lemma loop_not_found fuel id timeout retries ETag i lastErr w k id' req ETag' :
  events (StopContainer_loop fuel id timeout retries ETag i lastErr w) !! k
  = Some (EvUpdateContainerState id' req ETag' (inr not_found)) ->
  out (StopContainer_loop fuel id timeout retries ETag i lastErr w) = Returned None
  /\ length (events (StopContainer_loop fuel id timeout retries ETag i lastErr w)) = S k.
Proof.
  revert i lastErr w k.
  apply (loop_ind id timeout retries ETag (fun _ _ _ r => forall k,
    events r !! k = Some (EvUpdateContainerState id' req ETag' (inr not_found)) ->
    out r = Returned None /\ length (events r) = S k)); simpl.
  - intros i lastErr w _ k Hk. discriminate.
  - intros i lastErr w _ k Hk. discriminate.
  - intros i lastErr w err w1 _ _ [|k] Hk; simpl in Hk; [|discriminate].
    injection Hk as _ _ _ ->. done.
  - intros i lastErr w op w1 err w2 _ _ _ _ [|[|k]] Hk; discriminate.
  - intros i lastErr w op w1 err w2 r _ _ _ _ IH [|[|k]] Hk; simpl in Hk;
      try discriminate.
    destruct (IH k Hk) as [-> ->]. done.
Qed.

Lemma loop_already_stopped fuel id timeout retries ETag i lastErr w k op :
  events (StopContainer_loop fuel id timeout retries ETag i lastErr w) !! k
  = Some (EvWait op (Some already_stopped)) ->
  out (StopContainer_loop fuel id timeout retries ETag i lastErr w) = Returned None
  /\ length (events (StopContainer_loop fuel id timeout retries ETag i lastErr w)) = S k.
Proof.
  revert i lastErr w k.
  apply (loop_ind id timeout retries ETag (fun _ _ _ r => forall k,
    events r !! k = Some (EvWait op (Some already_stopped)) ->
    out r = Returned None /\ length (events r) = S k)); simpl.
  - intros i lastErr w _ k Hk. discriminate.
  - intros i lastErr w _ k Hk. discriminate.
  - intros i lastErr w err w1 _ _ [|k] Hk; discriminate.
  - intros i lastErr w op' w1 err w2 _ _ _ _ [|[|k]] Hk; simpl in Hk;
      try discriminate. done.
  - intros i lastErr w op' w1 err w2 r _ _ _ Hs IH [|[|k]] Hk; simpl in Hk.
    + discriminate.
    + injection Hk as _ ->. discriminate.
    + destruct (IH k Hk) as [-> ->]. done.
Qed.

(** every request of a call is a stop of the given container with the
    given timeout and an empty ETag; it is forced exactly at the attempt
    whose counter equals [retries], and the attempts left bound the
    number of requests *)
Lemma loop_requests fuel id timeout retries ETag i lastErr w :
  retries < max_int ->
  min_int <= i <= retries + 1 ->
  Z.of_nat (length (requests
    (events (StopContainer_loop fuel id timeout retries ETag i lastErr w))))
  <= retries + 1 - i
  /\ forall k id' req ETag',
       requests (events (StopContainer_loop fuel id timeout retries ETag i lastErr w)) !! k
       = Some (id', req, ETag') ->
       id' = id /\ ETag' = ETag /\ Action req = "stop" /\ Timeout req = timeout
       /\ Force req = (i + Z.of_nat k =? retries).
Proof.
  intros Hmax. revert i lastErr w.
  apply (loop_ind id timeout retries ETag (fun i _ _ r =>
    min_int <= i <= retries + 1 ->
    Z.of_nat (length (requests (events r))) <= retries + 1 - i
    /\ forall k id' req ETag',
         requests (events r) !! k = Some (id', req, ETag') ->
         id' = id /\ ETag' = ETag /\ Action req = "stop" /\ Timeout req = timeout
         /\ Force req = (i + Z.of_nat k =? retries))); simpl.
  - intros i lastErr w Hi Hr. split; [lia|]. intros k ? ? ? Hk. discriminate.
  - intros i lastErr w Hi Hr. split; [lia|]. intros k ? ? ? Hk. discriminate.
  - intros i lastErr w err w1 Hi _ Hr. split; [lia|].
    intros [|k] ? ? ? Hk; simpl in Hk; [|discriminate].
    injection Hk as <- <- <-. simpl. by rewrite Z.add_0_r.
  - intros i lastErr w op w1 err w2 Hi _ _ _ Hr. split; [lia|].
    intros [|k] ? ? ? Hk; simpl in Hk; [|discriminate].
    injection Hk as <- <- <-. simpl. by rewrite Z.add_0_r.
  - intros i lastErr w op w1 err w2 r Hi _ _ _ IH Hr.
    rewrite incr_below_max in IH by lia.
    destruct IH as [IHn IHk]; [lia|]. split; [lia|].
    intros [|k] ? ? ? Hk; simpl in Hk.
    + injection Hk as <- <- <-. simpl. by rewrite Z.add_0_r.
    + destruct (IHk _ _ _ _ Hk) as (-> & -> & -> & -> & ->).
      repeat split. f_equal. lia.
Qed.

(** a call whose counter cannot wrap returns once it has fuel for the
    attempts left *)
Lemma loop_returns fuel id timeout retries ETag : forall i lastErr w,
  retries < max_int ->
  min_int <= i ->
  (Z.to_nat (retries + 1 - i) <= fuel)%nat ->
  exists err,
    out (StopContainer_loop fuel id timeout retries ETag i lastErr w) = Returned err.
Proof.
  induction fuel as [|fuel IH]; intros i lastErr w Hmax Hi Hfuel;
    destruct (Z.leb_spec i retries) as [Hle|Hgt];
    try (rewrite loop_exit by done; by eexists).
  - lia.
  - destruct (UpdateContainerState id (request_at timeout retries i) ETag w)
      as [[op|err] w1] eqn:Hu.
    + destruct (Wait op w1) as [err w2] eqn:Hw.
      destruct (is_already_stopped err) eqn:Hs.
      * erewrite loop_stopped by done. by eexists.
      * erewrite loop_again by done. simpl.
        apply IH; rewrite ?incr_below_max by lia; lia.
    + erewrite loop_refused by done. simpl.
      destruct (String.eqb err not_found); by eexists.
Qed.

(** when no attempt of a call ends it, the call runs out of fuel or makes
    every attempt left, awaits each of them, and returns the completion
    of the last one *)
Lemma loop_last_error fuel id timeout retries ETag i lastErr w :
  retries < max_int ->
  min_int <= i <= retries + 1 ->
  forallb non_terminal
    (events (StopContainer_loop fuel id timeout retries ETag i lastErr w)) = true ->
  out (StopContainer_loop fuel id timeout retries ETag i lastErr w) = OutOfFuel
  \/ (out (StopContainer_loop fuel id timeout retries ETag i lastErr w)
      = Returned (default lastErr (last (completions
          (events (StopContainer_loop fuel id timeout retries ETag i lastErr w)))))
      /\ Z.of_nat (length (requests
           (events (StopContainer_loop fuel id timeout retries ETag i lastErr w))))
         = retries + 1 - i
      /\ Z.of_nat (length (completions
           (events (StopContainer_loop fuel id timeout retries ETag i lastErr w))))
         = retries + 1 - i
      /\ awaited (events (StopContainer_loop fuel id timeout retries ETag i lastErr w))).
Proof.
  intros Hmax. revert i lastErr w.
  apply (loop_ind id timeout retries ETag (fun i lastErr _ r =>
    min_int <= i <= retries + 1 ->
    forallb non_terminal (events r) = true ->
    out r = OutOfFuel
    \/ (out r = Returned (default lastErr (last (completions (events r))))
        /\ Z.of_nat (length (requests (events r))) = retries + 1 - i
        /\ Z.of_nat (length (completions (events r))) = retries + 1 - i
        /\ awaited (events r)))); simpl.
  - intros i lastErr w Hi Hr _. right. repeat split; try lia. constructor.
  - intros i lastErr w Hi Hr _. by left.
  - intros i lastErr w err w1 Hi _ Hr Hev. discriminate.
  - intros i lastErr w op w1 err w2 Hi _ _ Hs Hr Hev. rewrite Hs in Hev. discriminate.
  - intros i lastErr w op w1 err w2 r Hi _ _ Hs IH Hr Hev.
    rewrite Hs in Hev. simpl in Hev.
    rewrite incr_below_max in IH by lia.
    destruct (IH ltac:(lia) Hev) as [Hout|(Hout & Hreq & Hcom & Haw)]; [by left|].
    right. rewrite Hout, last_cons.
    repeat split; try lia.
    + by destruct (last (completions (events r))).
    + by constructor.
Qed.

(** a call whose counter cannot wrap returns once it has fuel for
    [retries] attempts *)
Lemma StopContainer_returns fuel id timeout retries w :
  retries < max_int ->
  (Z.to_nat retries <= fuel)%nat ->
  exists err, out (StopContainer fuel id timeout retries w) = Returned err.
Proof.
  intros Hr Hfuel. unfold StopContainer. apply loop_returns; [done| |].
  - rewrite min_int_val. lia.
  - by replace (retries + 1 - 1) with retries by lia.
Qed.

(** C10: with [retries <= 0] the loop body is never entered: no request
    reaches the manager, whose world is left as it was, and the call
    returns [nil], whatever the fuel. *)
Theorem StopContainer_without_retries fuel id timeout retries w :
  retries <= 0 ->
  StopContainer fuel id timeout retries w
  = {| out := Returned None; events := []; world := w |}.
Proof. intros Hr. unfold StopContainer. apply loop_exit. lia. Qed.

(** C2: when the manager answers a submission of the call with "not
    found", at whichever attempt, the call has returned [nil] and that
    submission is the last event of the trace: nothing is submitted or
    awaited after it. *)
Theorem not_found_is_success fuel id timeout retries w k id' req ETag' :
  events (StopContainer fuel id timeout retries w) !! k
  = Some (EvUpdateContainerState id' req ETag' (inr not_found)) ->
  out (StopContainer fuel id timeout retries w) = Returned None
  /\ length (events (StopContainer fuel id timeout retries w)) = S k.
Proof. apply loop_not_found. Qed.

(** C3: when an awaited operation of the call completes with "The
    container is already stopped", at whichever attempt, the call has
    returned [nil] at once: that completion is the last event of the
    trace. *)
Theorem already_stopped_is_success fuel id timeout retries w k op :
  events (StopContainer fuel id timeout retries w) !! k
  = Some (EvWait op (Some already_stopped)) ->
  out (StopContainer fuel id timeout retries w) = Returned None
  /\ length (events (StopContainer fuel id timeout retries w)) = S k.
Proof. apply loop_already_stopped. Qed.

(** C1, for every [retries] from 1 up to, but excluding, the largest
    [int]: a call submits at most [retries] requests; each is a stop of
    the given container carrying the given timeout (and an empty ETag),
    and the request of attempt number [k + 1] is forced exactly when
    that number equals [retries], so on the final attempt and on no
    earlier one.  This holds for any fuel, so for every prefix of the
    call as well. *)
Theorem requests_bounded_and_last_forced fuel id timeout retries w :
  1 <= retries < max_int ->
  Z.of_nat (length (requests (events (StopContainer fuel id timeout retries w))))
  <= retries
  /\ forall k id' req ETag',
       requests (events (StopContainer fuel id timeout retries w)) !! k
       = Some (id', req, ETag') ->
       id' = id /\ ETag' = "" /\ Action req = "stop" /\ Timeout req = timeout
       /\ (Force req = true <-> Z.of_nat k + 1 = retries).
Proof.
  intros Hr. unfold StopContainer.
  destruct (loop_requests fuel id timeout retries "" 1 None w) as [Hn Hk];
    [lia | rewrite min_int_val; lia |].
  split; [lia|]. intros k id' req ETag' Hreq.
  destruct (Hk _ _ _ _ Hreq) as (-> & -> & -> & -> & ->).
  repeat split; try done.
  - intros Hf. apply Z.eqb_eq in Hf. lia.
  - intros Hf. apply Z.eqb_eq. lia.
Qed.

(** C4, for every [retries] from 1 up to, but excluding, the largest
    [int], and with fuel for [retries] attempts: when every submission of
    the call is accepted and no completion is "already stopped", the
    call makes all [retries] attempts, awaits the operation of each
    whatever its result, and returns exactly the completion of the last
    attempt. *)
Theorem last_error_is_returned fuel id timeout retries w :
  1 <= retries < max_int ->
  (Z.to_nat retries <= fuel)%nat ->
  forallb non_terminal (events (StopContainer fuel id timeout retries w)) = true ->
  awaited (events (StopContainer fuel id timeout retries w))
  /\ Z.of_nat (length (requests (events (StopContainer fuel id timeout retries w))))
     = retries
  /\ Z.of_nat (length (completions (events (StopContainer fuel id timeout retries w))))
     = retries
  /\ exists err,
       last (completions (events (StopContainer fuel id timeout retries w))) = Some err
       /\ out (StopContainer fuel id timeout retries w) = Returned err.
Proof.
  intros Hr Hfuel Hev. unfold StopContainer in *.
  destruct (loop_returns fuel id timeout retries "" 1 None w) as [err Herr];
    [lia | rewrite min_int_val; lia | by replace (retries + 1 - 1) with retries by lia |].
  destruct (loop_last_error fuel id timeout retries "" 1 None w)
    as [Hout|(Hout & Hreq & Hcom & Haw)];
    [lia | rewrite min_int_val; lia | done | congruence |].
  repeat split; try done; try lia.
  destruct (last _) as [e|] eqn:Hlast; [by exists e|].
  apply last_None in Hlast. rewrite Hlast in Hcom. simpl in Hcom. lia.
Qed.

End Calls.

(** *** Two calls in succession *)
Section Idempotence.

Context {World Operation : Type} `{!ContainerServer World Operation}.

Implicit Types (w : World) (fuel : nat) (i timeout retries : Z).
Implicit Types (lastErr : option error) (id ETag : string).

(** [settled id w]: in the world [w] the manager has nothing left to stop
    for [id].  A manager is coherent about stops when a container becomes
    settled as soon as a stop of it is refused as not found, or completes
    without error or as already stopped, and when a settled container is
    answered with one of these two errors. *)
Variable settled : string -> World -> Prop.

Hypothesis settled_not_found : forall id req ETag w w1,
  Action req = "stop" ->
  UpdateContainerState id req ETag w = (inr not_found, w1) ->
  settled id w1.

Hypothesis settled_completed : forall id req ETag w op w1 err w2,
  Action req = "stop" ->
  UpdateContainerState id req ETag w = (inl op, w1) ->
  Wait op w1 = (err, w2) ->
  err = None \/ err = Some already_stopped ->
  settled id w2.

Hypothesis settled_answer : forall id req ETag w,
  Action req = "stop" ->
  settled id w ->
  (exists w1, UpdateContainerState id req ETag w = (inr not_found, w1))
  \/ (exists op w1 w2,
        UpdateContainerState id req ETag w = (inl op, w1)
        /\ Wait op w1 = (Some already_stopped, w2)).

Lemma is_already_stopped_true err :
  is_already_stopped err = true <-> err = Some already_stopped.
Proof.
  destruct err as [e|]; simpl; [|done].
  rewrite String.eqb_eq. split; congruence.
Qed.

(** a call that returns success leaves the container settled, provided it
    made an attempt or found it settled *)
Lemma loop_success_settles fuel id timeout retries ETag i lastErr w :
  i <= retries \/ (lastErr = None -> settled id w) ->
  out (StopContainer_loop fuel id timeout retries ETag i lastErr w) = Returned None ->
  settled id (world (StopContainer_loop fuel id timeout retries ETag i lastErr w)).
Proof.
  revert i lastErr w.
  apply (loop_ind id timeout retries ETag (fun i lastErr w r =>
    i <= retries \/ (lastErr = None -> settled id w) ->
    out r = Returned None -> settled id (world r))); simpl.
  - intros i lastErr w Hi [Hle|Hs] Hout; [lia|]. apply Hs. congruence.
  - intros i lastErr w Hi _ Hout. discriminate.
  - intros i lastErr w err w1 Hi Hu _ Hout.
    destruct (String.eqb_spec err not_found) as [->|Hne]; [|discriminate].
    eapply settled_not_found; [|exact Hu]. reflexivity.
  - intros i lastErr w op w1 err w2 Hi Hu Hw Hs _ _.
    eapply settled_completed; [|exact Hu|exact Hw|]; [reflexivity|].
    right. by apply is_already_stopped_true.
  - intros i lastErr w op w1 err w2 r Hi Hu Hw Hs IH _ Hout.
    apply IH; [|done]. right. intros ->.
    eapply settled_completed; [|exact Hu|exact Hw|]; [reflexivity|by left].
Qed.

(** a call that finds the container settled returns success *)
Lemma loop_settled_success fuel id timeout retries ETag i lastErr w :
  i <= retries ->
  settled id w ->
  out (StopContainer_loop (S fuel) id timeout retries ETag i lastErr w) = Returned None.
Proof.
  intros Hi Hs.
  destruct (settled_answer id (request_at timeout retries i) ETag w eq_refl Hs)
    as [(w1 & Hu)|(op & w1 & w2 & Hu & Hw)].
  - erewrite loop_refused by done. done.
  - erewrite loop_stopped; done.
Qed.

(** C5, for a manager that is coherent about stops: when [StopContainer]
    is called twice in succession on a container, with the same
    [retries] and any two timeouts, and the first call returned [nil],
    the second call returns [nil] as well. *)
Theorem second_stop_succeeds fuel1 fuel2 id timeout1 timeout2 retries w :
  out (StopContainer fuel1 id timeout1 retries w) = Returned None ->
  out (StopContainer (S fuel2) id timeout2 retries
         (world (StopContainer fuel1 id timeout1 retries w)))
  = Returned None.
Proof.
  intros Hfirst.
  destruct (Z.leb_spec 1 retries) as [Hr|Hr].
  - unfold StopContainer in *. apply loop_settled_success; [done|].
    apply loop_success_settles; [by left | done].
  - unfold StopContainer. by rewrite (loop_exit (S fuel2)) by lia.
Qed.

End Idempotence.

(** the manager with a table of containers is coherent about stops *)
Lemma lxd_settled_not_found id req ETag (w w1 : Lxd) :
  Action req = "stop" ->
  UpdateContainerState id req ETag w = (inr not_found, w1) ->
  at_rest id w1.
Proof.
  intros _. unfold at_rest. simpl. unfold lxd_update.
  destruct (containers w !! id) as [[]|] eqn:Hc; try destruct (_ || _);
    intros Hu; simplify_eq. by rewrite Hc.
Qed.

Lemma lxd_settled_completed id req ETag (w : Lxd) op w1 err w2 :
  Action req = "stop" ->
  UpdateContainerState id req ETag w = (inl op, w1) ->
  Wait op w1 = (err, w2) ->
  err = None \/ err = Some already_stopped ->
  at_rest id w2.
Proof.
  intros _. unfold at_rest. simpl. unfold lxd_update.
  destruct (containers w !! id) as [[]|] eqn:Hc; try destruct (_ || _);
    intros Hu Hw Herr; simplify_eq; simpl.
  - by rewrite lookup_insert_eq.
  - by destruct Herr.
  - by rewrite Hc.
Qed.

Lemma lxd_settled_answer id req ETag (w : Lxd) :
  Action req = "stop" ->
  at_rest id w ->
  (exists w1, UpdateContainerState id req ETag w = (inr not_found, w1))
  \/ (exists op w1 w2,
        UpdateContainerState id req ETag w = (inl op, w1)
        /\ Wait op w1 = (Some already_stopped, w2)).
Proof.
  intros _. unfold at_rest. simpl. unfold lxd_update.
  destruct (containers w !! id) as [[]|] eqn:Hc; intros Hrest.
  - done.
  - right. by eexists _, _, _.
  - left. by eexists.
Qed.

(** a stubborn container is stopped by the forced third attempt of the
    first call; the second call finds it stopped *)
Lemma second_stop_succeeds_witness :
  out (StopContainer 3 "c1" 30 3 one_stubborn) = Returned None
  /\ length (events (StopContainer 3 "c1" 30 3 one_stubborn)) = 6%nat
  /\ out (StopContainer 1 "c1" 5 3 (world (StopContainer 3 "c1" 30 3 one_stubborn)))
     = Returned None.
Proof.
  split; [vm_compute; reflexivity|]. split; [vm_compute; reflexivity|].
  apply (second_stop_succeeds at_rest
           lxd_settled_not_found lxd_settled_completed lxd_settled_answer
           3 0 "c1" 30 5 3 one_stubborn).
  vm_compute. reflexivity.
Defined.

(** The first call stops the container.  The manager then refuses the
    submission of the second call with an error of its own, and the second
    call returns that error. *)
Lemma second_stop_can_fail :
  out (StopContainer 1 "c1" 30 1 [Accept None; Refuse "connection refused"])
  = Returned None
  /\ out (StopContainer 1 "c1" 30 1
            (world (StopContainer 1 "c1" 30 1
                      [Accept None; Refuse "connection refused"])))
     = Returned (Some "failed to stop container c1, connection refused").
Proof. split; reflexivity. Qed.

(** *** "not found" as the completion of an operation *)

(** The manager accepts the stop and the operation that is awaited
    completes with "not found": the text is looked for in the answer to
    the submission only.  With one attempt the call returns that error;
    with two, a second request is submitted and awaited after it. *)
Lemma not_found_completion_is_no_success :
  events (StopContainer 1 "c1" 30 1 [Accept (Some not_found)])
  = [EvUpdateContainerState "c1"
       {| Action := "stop"; Timeout := 30; Force := true |} ""
       (inl (Some not_found));
     EvWait (Some not_found) (Some not_found)]
  /\ out (StopContainer 1 "c1" 30 1 [Accept (Some not_found)])
     = Returned (Some "not found")
  /\ events (StopContainer 2 "c1" 30 2
               [Accept (Some not_found); Accept (Some still_running)])
     = [EvUpdateContainerState "c1"
          {| Action := "stop"; Timeout := 30; Force := false |} ""
          (inl (Some not_found));
        EvWait (Some not_found) (Some not_found);
        EvUpdateContainerState "c1"
          {| Action := "stop"; Timeout := 30; Force := true |} ""
          (inl (Some still_running));
        EvWait (Some still_running) (Some still_running)]
  /\ out (StopContainer 2 "c1" 30 2
            [Accept (Some not_found); Accept (Some still_running)])
     = Returned (Some still_running).
Proof. repeat apply conj; reflexivity. Qed.

(** *** The largest [int]: the counter wraps and the loop has no end *)

(** Against a manager whose container never stops, a call with [retries]
    at the largest [int] spends all the fuel it is given: every unit buys
    one more request, none of which ends the call. *)
Lemma busy_loop fuel id timeout : forall i lastErr,
  in_int i ->
  out (StopContainer_loop fuel id timeout max_int "" i lastErr ()) = OutOfFuel
  /\ length (requests (events (StopContainer_loop fuel id timeout max_int "" i lastErr ())))
     = fuel
  /\ forallb non_terminal
       (events (StopContainer_loop fuel id timeout max_int "" i lastErr ())) = true.
Proof.
  induction fuel as [|fuel IH]; intros i lastErr Hi.
  - rewrite loop_no_fuel by apply Hi. done.
  - erewrite loop_again; [| apply Hi | reflexivity | reflexivity | reflexivity ].
    destruct (IH (incr i) (Some still_running) (incr_in_int i)) as (Hout & Hlen & Hev).
    simpl. by rewrite Hout, Hlen, Hev.
Qed.

Lemma one_in_int : in_int 1.
Proof. unfold in_int. rewrite min_int_val, max_int_val. lia. Qed.

(** With [retries] at the largest [int], 9223372036854775807, the guard
    [i <= retries] holds for every counter value, and [i++] wraps from
    the largest [int] to the smallest.  Against a container that never
    stops, one attempt more than [retries] is made. *)
Lemma more_requests_than_retries_at_max_int :
  ~ Z.of_nat (length (requests (events
        (StopContainer (S (Z.to_nat max_int)) "c1" 30 max_int ()))))
    <= max_int.
Proof.
  unfold StopContainer.
  destruct (busy_loop (S (Z.to_nat max_int)) "c1" 30 1 None one_in_int)
    as (_ & -> & _).
  rewrite max_int_val. lia.
Qed.

(** With [retries] at the largest [int], against a container that never
    stops: every attempt completes with an error that is neither "not
    found" nor "already stopped", and the call never returns, however
    much fuel it is given. *)
Lemma no_return_at_max_int :
  (~ exists fuel err, out (StopContainer fuel "c1" 30 max_int ()) = Returned err)
  /\ (~ exists fuel,
        forallb non_terminal (events (StopContainer fuel "c1" 30 max_int ())) = false).
Proof.
  unfold StopContainer. split.
  - intros (fuel & err & Hout).
    destruct (busy_loop fuel "c1" 30 1 None one_in_int) as (Hfuel & _ & _).
    congruence.
  - intros (fuel & Hev).
    destruct (busy_loop fuel "c1" 30 1 None one_in_int) as (_ & _ & Hnt).
    congruence.
Qed.


(** with no retries nothing is asked of a manager that would refuse *)
Lemma StopContainer_without_retries_witness :
  StopContainer 0 "c1" 30 (-1) [Refuse "permission denied"]
  = {| out := Returned None; events := [];
       world := [Refuse "permission denied"] |}.
Proof. apply StopContainer_without_retries. lia. Defined.

(** three attempts at a container that stops at the forced one *)
Lemma requests_bounded_and_last_forced_witness :
  requests (events (StopContainer 3 "c1" 30 3
    [Accept (Some still_running); Accept (Some still_running); Accept None]))
  = [("c1", {| Action := "stop"; Timeout := 30; Force := false |}, "");
     ("c1", {| Action := "stop"; Timeout := 30; Force := false |}, "");
     ("c1", {| Action := "stop"; Timeout := 30; Force := true |}, "")]
  /\ (Z.of_nat (length (requests (events (StopContainer 3 "c1" 30 3
        [Accept (Some still_running); Accept (Some still_running); Accept None]))))
      <= 3
      /\ forall k id' req ETag',
           requests (events (StopContainer 3 "c1" 30 3
             [Accept (Some still_running); Accept (Some still_running); Accept None]))
             !! k
           = Some (id', req, ETag') ->
           id' = "c1" /\ ETag' = "" /\ Action req = "stop" /\ Timeout req = 30
           /\ (Force req = true <-> Z.of_nat k + 1 = 3)).
Proof.
  split; [reflexivity|].
  apply (requests_bounded_and_last_forced 3 "c1" 30 3
           [Accept (Some still_running); Accept (Some still_running); Accept None]).
  rewrite max_int_val. lia.
Defined.

(** three attempts at a container that fails to stop each time, with a
    different error *)
Lemma last_error_is_returned_witness :
  out (StopContainer 3 "c1" 30 3
         [Accept (Some "first"); Accept (Some "second"); Accept (Some "third")])
  = Returned (Some "third")
  /\ (awaited (events (StopContainer 3 "c1" 30 3
         [Accept (Some "first"); Accept (Some "second"); Accept (Some "third")]))
      /\ Z.of_nat (length (requests (events (StopContainer 3 "c1" 30 3
           [Accept (Some "first"); Accept (Some "second"); Accept (Some "third")]))))
         = 3
      /\ Z.of_nat (length (completions (events (StopContainer 3 "c1" 30 3
           [Accept (Some "first"); Accept (Some "second"); Accept (Some "third")]))))
         = 3
      /\ exists err,
           last (completions (events (StopContainer 3 "c1" 30 3
             [Accept (Some "first"); Accept (Some "second"); Accept (Some "third")])))
           = Some err
           /\ out (StopContainer 3 "c1" 30 3
                [Accept (Some "first"); Accept (Some "second"); Accept (Some "third")])
              = Returned err).
Proof.
  split; [reflexivity|].
  apply (last_error_is_returned 3 "c1" 30 3
           [Accept (Some "first"); Accept (Some "second"); Accept (Some "third")]).
  - rewrite max_int_val. lia.
  - simpl. lia.
  - reflexivity.
Defined.

(** the container vanishes between the first and the second attempt *)
Lemma not_found_is_success_witness :
  events (StopContainer 3 "c1" 30 3 [Accept (Some still_running); Refuse not_found]) !! 2%nat
  = Some (EvUpdateContainerState "c1"
            {| Action := "stop"; Timeout := 30; Force := false |} "" (inr not_found))
  /\ out (StopContainer 3 "c1" 30 3 [Accept (Some still_running); Refuse not_found])
     = Returned None
  /\ length (events (StopContainer 3 "c1" 30 3
                       [Accept (Some still_running); Refuse not_found])) = 3%nat.
Proof.
  split; [reflexivity|].
  apply (not_found_is_success 3 "c1" 30 3
           [Accept (Some still_running); Refuse not_found] 2 "c1"
           {| Action := "stop"; Timeout := 30; Force := false |} "").
  reflexivity.
Defined.

(** the second of three attempts finds the container stopped *)
Lemma already_stopped_is_success_witness :
  events (StopContainer 3 "c1" 30 3
            [Accept (Some still_running); Accept (Some already_stopped)]) !! 3%nat
  = Some (EvWait (Some already_stopped) (Some already_stopped))
  /\ out (StopContainer 3 "c1" 30 3
            [Accept (Some still_running); Accept (Some already_stopped)])
     = Returned None
  /\ length (events (StopContainer 3 "c1" 30 3
                       [Accept (Some still_running); Accept (Some already_stopped)]))
     = 4%nat.
Proof.
  split; [reflexivity|].
  apply (already_stopped_is_success 3 "c1" 30 3
           [Accept (Some still_running); Accept (Some already_stopped)] 3
           (Some already_stopped)).
  reflexivity.
Defined.

End StopContainerSpec.

(** ** The CNI network plugin: results, status and the runtime conf *)
Module NetworkSpec.

Import Network.

(** split the conjunctions that are written out, and no definition *)
Ltac conjs := repeat match goal with |- _ /\ _ => split end.

(** *** Texts *)

Lemma append_cons c (s1 s2 : string) : String c s1 +:+ s2 = String c (s1 +:+ s2).
Proof. reflexivity. Qed.

Lemma append_empty_l (s : string) : "" +:+ s = s.
Proof. reflexivity. Qed.

Lemma append_empty_r (s : string) : s +:+ "" = s.
Proof. induction s as [|c s IH]; [done|]. by rewrite append_cons, IH. Qed.

Lemma append_assoc (s1 s2 s3 : string) : (s1 +:+ s2) +:+ s3 = s1 +:+ s2 +:+ s3.
Proof. induction s1 as [|c s1 IH]; [done|]. by rewrite !append_cons, IH. Qed.

Lemma digit_is_no_slash c : is_digit c = true -> Ascii.eqb c "/" = false.
Proof. destruct (Ascii.eqb_spec c "/") as [->|]; [|done]. by vm_compute. Qed.

Lemma digit_is_no_dot c : is_digit c = true -> Ascii.eqb c "." = false.
Proof. destruct (Ascii.eqb_spec c ".") as [->|]; [|done]. by vm_compute. Qed.

Lemma all_digits_no_slash s : all_digits s = true -> no_slash s = true.
Proof.
  induction s as [|c s IH]; simpl; [done|].
  intros [Hc Hs]%andb_true_iff. by rewrite digit_is_no_slash, IH.
Qed.

Lemma no_slash_app s1 s2 : no_slash (s1 +:+ s2) = no_slash s1 && no_slash s2.
Proof.
  induction s1 as [|c s1 IH]; [done|].
  rewrite append_cons. simpl. by rewrite IH, andb_assoc.
Qed.

Lemma reads_no_slash ds n : reads ds n -> no_slash ds = true.
Proof. intros (_ & Hd & _). by apply all_digits_no_slash. Qed.

Lemma dotted_no_slash sa sb sc sd a b c d :
  reads sa a -> reads sb b -> reads sc c -> reads sd d ->
  no_slash (dotted sa sb sc sd) = true.
Proof.
  intros Ha Hb Hc Hd. unfold dotted.
  by rewrite !no_slash_app, (reads_no_slash sa a), (reads_no_slash sb b),
    (reads_no_slash sc c), (reads_no_slash sd d).
Qed.

(** the text before the first slash and the text after it *)
Lemma cut_at_slash_app s1 s2 :
  no_slash s1 = true -> cut_at_slash (s1 +:+ String "/" s2) = Some (s1, s2).
Proof.
  induction s1 as [|c s1 IH]; [done|].
  rewrite append_cons. simpl.
  intros [Hc Hs]%andb_true_iff. apply negb_true_iff in Hc. by rewrite Hc, IH.
Qed.

Lemma cut_at_slash_sound s : forall addr mask,
  cut_at_slash s = Some (addr, mask) ->
  s = addr +:+ String "/" mask /\ no_slash addr = true.
Proof.
  induction s as [|c s IH]; intros addr mask; simpl; [done|].
  destruct (Ascii.eqb_spec c "/") as [->|Hc].
  - by intros [= <- <-].
  - destruct (cut_at_slash s) as [[addr' mask']|]; [|done].
    intros [= <- <-]. destruct (IH _ _ eq_refl) as [-> Hs].
    split; [done|]. simpl. rewrite Hs.
    by destruct (Ascii.eqb_spec c "/").
Qed.

Lemma cut_at_slash_none s : no_slash s = true -> cut_at_slash s = None.
Proof.
  induction s as [|c s IH]; simpl; [done|].
  intros [Hc Hs]%andb_true_iff. apply negb_true_iff in Hc.
  by rewrite Hc, IH.
Qed.

(** *** [dtoi] reads decimal numerals and nothing else *)

Lemma dtoi_from_stops s n : digit_free_front s = true -> dtoi_from s n true = Some (n, s).
Proof.
  destruct s as [|c s]; simpl; [done|].
  intros Hc. apply negb_true_iff in Hc. by rewrite Hc.
Qed.

Lemma decimal_from_ge ds : forall n, (n <= decimal_from ds n)%N.
Proof.
  induction ds as [|c ds IH]; intros n; simpl; [lia|].
  etransitivity; [|apply IH]. lia.
Qed.

Lemma dtoi_from_complete ds : forall n seen rest,
  all_digits ds = true ->
  seen = true \/ ds <> "" ->
  digit_free_front rest = true ->
  (decimal_from ds n < big)%N ->
  dtoi_from (ds +:+ rest) n seen = Some (decimal_from ds n, rest).
Proof.
  induction ds as [|c ds IH]; intros n seen rest Hds Hseen Hrest Hbig.
  - rewrite append_empty_l. destruct Hseen as [->|Hne]; [|done].
    by apply dtoi_from_stops.
  - rewrite append_cons. simpl in *.
    apply andb_true_iff in Hds as [Hc Hds]. rewrite Hc.
    pose proof (decimal_from_ge ds (n * 10 + (N_of_ascii c - 48))) as Hge.
    destruct (N.leb_spec big (n * 10 + (N_of_ascii c - 48))) as [Hle|Hlt]; [lia|].
    apply IH; auto.
Qed.

Lemma dtoi_from_sound s : forall n seen v rest,
  dtoi_from s n seen = Some (v, rest) ->
  exists ds,
    s = ds +:+ rest /\ all_digits ds = true /\ v = decimal_from ds n
    /\ (seen = true \/ ds <> "") /\ digit_free_front rest = true.
Proof.
  induction s as [|c s IH]; intros n seen v rest Hread; simpl in Hread.
  - destruct seen; [|done]. injection Hread as <- <-. exists "".
    repeat apply conj; auto.
  - destruct (is_digit c) eqn:Hc.
    + destruct (big <=? n * 10 + (N_of_ascii c - 48))%N; [done|].
      destruct (IH _ _ _ _ Hread) as (ds & -> & Hds & -> & _ & Hrest).
      exists (String c ds). rewrite append_cons. simpl. rewrite Hc.
      repeat apply conj; auto.
    + destruct seen; [|done]. injection Hread as <- <-. exists "". simpl.
      rewrite Hc. repeat apply conj; auto.
Qed.

Lemma dtoi_of_reads ds n rest :
  reads ds n -> (n < big)%N -> digit_free_front rest = true ->
  dtoi (ds +:+ rest) = Some (n, rest).
Proof.
  intros (Hne & Hds & <-) Hbig Hrest. unfold dtoi, decimal in *.
  apply dtoi_from_complete; auto.
Qed.

Lemma reads_of_dtoi s n rest :
  dtoi s = Some (n, rest) ->
  exists ds, s = ds +:+ rest /\ reads ds n /\ digit_free_front rest = true.
Proof.
  intros Hread. unfold dtoi in Hread.
  destruct (dtoi_from_sound _ _ _ _ _ Hread) as (ds & -> & Hds & -> & [?|Hne] & Hrest);
    [done|].
  exists ds. conjs; auto. by conjs.
Qed.

Lemma byte_below_big n : (n <= 255)%N -> (n < big)%N.
Proof. unfold big. lia. Qed.

(** *** [parseIPv4] reads four decimal bytes joined by dots *)

Lemma after_dot c s :
  match String c s with
  | String "." s' => Some s'
  | _ => None
  end = if Ascii.eqb c "." then Some s else None.
Proof.
  destruct (Ascii.eqb_spec c ".") as [->|Hne]; [done|].
  destruct c as [[] [] [] [] [] [] [] []]; try done.
Qed.

Lemma parse_bytes_complete count first ds n rest :
  reads ds n -> (n <= 255)%N -> digit_free_front rest = true ->
  parse_bytes (S count) first ((if first then "" else ".") +:+ ds +:+ rest)
  = match parse_bytes count false rest with
    | Some bytes => Some (n :: bytes)
    | None => None
    end.
Proof.
  intros Hds Hn Hrest.
  pose proof (dtoi_of_reads ds n rest Hds (byte_below_big n Hn) Hrest) as Hread.
  destruct Hds as (Hne & _ & _).
  destruct first.
  - rewrite append_empty_l. simpl.
    rewrite Hread. clear Hread. destruct ds as [|x ds]; [done|].
    rewrite append_cons. by apply N.ltb_ge in Hn as ->.
  - rewrite append_cons, append_empty_l. simpl. rewrite Hread.
    by apply N.ltb_ge in Hn as ->.
Qed.

Lemma parse_bytes_sound count first s l :
  parse_bytes (S count) first s = Some l ->
  exists ds n rest bytes,
    l = n :: bytes
    /\ s = (if first then "" else ".") +:+ ds +:+ rest
    /\ reads ds n /\ (n <= 255)%N
    /\ parse_bytes count false rest = Some bytes.
Proof.
  cbn [parse_bytes]. intros Hparse.
  assert (exists s1, s = (if first then "" else ".") +:+ s1
            /\ match dtoi s1 with
               | Some (n, s2) =>
                   if (0xFF <? n)%N then None
                   else match parse_bytes count false s2 with
                        | Some bytes => Some (n :: bytes)
                        | None => None
                        end
               | None => None
               end = Some l) as (s1 & -> & Hs1).
  { destruct s as [|c s]; [by destruct first|].
    destruct first; [by exists (String c s)|].
    rewrite after_dot in Hparse.
    destruct (Ascii.eqb_spec c ".") as [->|]; [|done]. by exists s. }
  destruct (dtoi s1) as [[n s2]|] eqn:Hread; [|done].
  destruct (N.ltb_spec 0xFF n) as [|Hn]; [done|].
  destruct (parse_bytes count false s2) as [bytes|] eqn:Hrest; [|done].
  injection Hs1 as <-.
  destruct (reads_of_dtoi _ _ _ Hread) as (ds & -> & Hds & _).
  exists ds, n, s2, bytes. conjs; auto.
Qed.

Lemma parse_bytes_end first s l : parse_bytes 0 first s = Some l -> s = "" /\ l = [].
Proof. simpl. destruct s; [|done]. by intros [= <-]. Qed.

Lemma dot_front s : digit_free_front ("." +:+ s) = true.
Proof. reflexivity. Qed.

Lemma parseIPv4_complete sa sb sc sd a b c d :
  reads sa a -> reads sb b -> reads sc c -> reads sd d ->
  (a <= 255)%N -> (b <= 255)%N -> (c <= 255)%N -> (d <= 255)%N ->
  parseIPv4 (dotted sa sb sc sd) = Some (IPv4 a b c d).
Proof.
  intros Ha Hb Hc Hd Hna Hnb Hnc Hnd. unfold parseIPv4, dotted.
  rewrite <- (append_empty_l (sa +:+ _)).
  rewrite (parse_bytes_complete 3 true sa a) by (auto using dot_front).
  rewrite (parse_bytes_complete 2 false sb b) by (auto using dot_front).
  rewrite (parse_bytes_complete 1 false sc c) by (auto using dot_front).
  rewrite <- (append_empty_r sd).
  by rewrite (parse_bytes_complete 0 false sd d).
Qed.

Lemma parseIPv4_sound s ip :
  parseIPv4 s = Some ip ->
  exists sa sb sc sd a b c d,
    ip = IPv4 a b c d /\ s = dotted sa sb sc sd
    /\ reads sa a /\ reads sb b /\ reads sc c /\ reads sd d
    /\ (a <= 255)%N /\ (b <= 255)%N /\ (c <= 255)%N /\ (d <= 255)%N.
Proof.
  unfold parseIPv4. destruct (parse_bytes 4 true s) as [l|] eqn:Hparse; [|done].
  destruct (parse_bytes_sound _ _ _ _ Hparse)
    as (sa & a & r1 & l1 & -> & -> & Ha & Hna & H1).
  destruct (parse_bytes_sound _ _ _ _ H1)
    as (sb & b & r2 & l2 & -> & -> & Hb & Hnb & H2).
  destruct (parse_bytes_sound _ _ _ _ H2)
    as (sc & c & r3 & l3 & -> & -> & Hc & Hnc & H3).
  destruct (parse_bytes_sound _ _ _ _ H3)
    as (sd & d & r4 & l4 & -> & -> & Hd & Hnd & H4).
  destruct (parse_bytes_end _ _ _ H4) as [-> ->].
  intros [= <-]. exists sa, sb, sc, sd, a, b, c, d.
  split; [done|]. split; [|tauto].
  unfold dotted. by rewrite append_empty_l, append_empty_r.
Qed.

(** *** [uitoa] prints what [dtoi] reads *)

Lemma small_prints_and_reads n : (n <= 255)%N -> prints_and_reads n = true.
Proof.
  intros Hn.
  assert (Hall : forallb prints_and_reads (N.of_nat <$> seq 0 256) = true)
    by (vm_compute; reflexivity).
  rewrite forallb_forall in Hall. apply Hall.
  rewrite <- (N2Nat.id n). apply in_map, in_seq. lia.
Qed.

Lemma reads_uitoa n : (n <= 255)%N -> reads (uitoa n) n.
Proof.
  intros Hn. pose proof (small_prints_and_reads n Hn) as Hok.
  unfold prints_and_reads in Hok.
  apply andb_true_iff in Hok as [Hok Hread].
  apply andb_true_iff in Hok as [Hdigits Hne].
  destruct (dtoi (uitoa n)) as [[v [|]]|] eqn:Hd; try done.
  apply N.eqb_eq in Hread as ->.
  destruct (reads_of_dtoi _ _ _ Hd) as (ds & Heq & Hds & _).
  rewrite append_empty_r in Heq. by rewrite Heq.
Qed.

Section Parsing.

Context `{!GoIPv6}.

(** *** [ParseCIDR] accepts the CIDR texts and nothing else *)

(** an IPv4 CIDR text is read as its four bytes and its prefix length *)
Lemma ParseCIDR_complete sa sb sc sd sp a b c d p :
  reads sa a -> reads sb b -> reads sc c -> reads sd d -> reads sp p ->
  (a <= 255)%N -> (b <= 255)%N -> (c <= 255)%N -> (d <= 255)%N -> (p <= 32)%N ->
  ParseCIDR (dotted sa sb sc sd +:+ "/" +:+ sp) = Some (IPv4 a b c d, p).
Proof.
  intros Ha Hb Hc Hd Hp Hna Hnb Hnc Hnd Hnp. unfold ParseCIDR.
  rewrite append_cons, append_empty_l.
  rewrite cut_at_slash_app by (by eapply dotted_no_slash).
  rewrite (parseIPv4_complete sa sb sc sd a b c d) by done.
  pose proof (dtoi_of_reads sp p "" Hp ltac:(unfold big; lia) eq_refl) as Hread.
  rewrite append_empty_r in Hread. rewrite Hread.
  destruct (N.ltb_spec (8 * 4) p) as [|_]; [lia|done].
Qed.

(** whatever [ParseCIDR] accepts is a CIDR text; an IPv4 address it gives
    is made of the four bytes of the text, an IPv6 address has sixteen
    bytes *)
Lemma ParseCIDR_sound s ip n :
  ParseCIDR s = Some (ip, n) ->
  cidr_text s
  /\ match ip with
     | IPv4 a b c d =>
         exists sa sb sc sd sp,
           s = dotted sa sb sc sd +:+ "/" +:+ sp
           /\ reads sa a /\ reads sb b /\ reads sc c /\ reads sd d /\ reads sp n
           /\ (a <= 255)%N /\ (b <= 255)%N /\ (c <= 255)%N /\ (d <= 255)%N
           /\ (n <= 32)%N
     | IPv6 bytes => length bytes = 16%nat
     end.
Proof.
  unfold ParseCIDR.
  destruct (cut_at_slash s) as [[addr mask]|] eqn:Hcut; [|done].
  destruct (cut_at_slash_sound _ _ _ Hcut) as [-> Haddr].
  destruct (parseIPv4 addr) as [ip4|] eqn:H4.
  - destruct (dtoi mask) as [[m [|]]|] eqn:Hmask; try done.
    destruct (N.ltb_spec (8 * 4) m) as [|Hm]; [done|].
    intros [= <- <-].
    destruct (reads_of_dtoi _ _ _ Hmask) as (ds & Heq & Hds & _).
    rewrite append_empty_r in Heq. subst ds.
    destruct (parseIPv4_sound _ _ H4)
      as (sa & sb & sc & sd & a & b & c & d & -> & -> & Ha & Hb & Hc & Hd & Hn).
    destruct Hn as (Hna & Hnb & Hnc & Hnd). split.
    + exists (dotted sa sb sc sd), mask, m. conjs; auto.
      left. exists sa, sb, sc, sd, a, b, c, d. conjs; auto; lia.
    + exists sa, sb, sc, sd, mask. conjs; auto; lia.
  - destruct (parseIPv6 addr) as [bytes|] eqn:H6; simpl; [|done].
    destruct (dtoi mask) as [[m [|]]|] eqn:Hmask; try done.
    destruct (N.ltb_spec (8 * 16) m) as [|Hm]; [done|].
    intros [= <- <-].
    destruct (reads_of_dtoi _ _ _ Hmask) as (ds & Heq & Hds & _).
    rewrite append_empty_r in Heq. subst ds.
    split; [|by eapply parseIPv6_len].
    exists addr, mask, m. conjs; auto.
    right. split; [by eapply parseIPv6_colon | lia].
Qed.

Lemma ParseCIDR_malformed s : ~ cidr_text s -> ParseCIDR s = None.
Proof.
  intros Hs. destruct (ParseCIDR s) as [[ip n]|] eqn:Hp; [|done].
  by destruct (ParseCIDR_sound _ _ _ Hp).
Qed.

(** a CIDR text has a slash in it *)
Lemma cidr_text_slash s : cidr_text s -> no_slash s = false.
Proof.
  intros (addr & mask & n & -> & _). rewrite no_slash_app.
  apply andb_false_iff. by right.
Qed.

(** the address of a CIDR text starts with a digit or has a colon *)
Lemma cidr_text_address s addr mask :
  cidr_text s -> cut_at_slash s = Some (addr, mask) ->
  has_colon addr = true
  \/ exists c addr', addr = String c addr' /\ is_digit c = true.
Proof.
  intros (addr' & mask' & n & -> & Hns & _ & Hshape) Hcut.
  rewrite append_cons, append_empty_l, cut_at_slash_app in Hcut by done.
  injection Hcut as <- <-.
  destruct Hshape as [(sa & sb & sc & sd & a & b & c & d & -> & Ha & _)|[Hc _]];
    [|by left].
  right. destruct Ha as (Hne & Hda & _). destruct sa as [|x sa]; [done|].
  simpl in Hda. apply andb_true_iff in Hda as [Hx _].
  exists x. eexists. split; [|done]. unfold dotted. by rewrite append_cons.
Qed.

(** *** Parsing the addresses of a result *)

Lemma parse_addresses_malformed before e after :
  ParseCIDR (Address e) = None ->
  exists err, parse_addresses (before ++ e :: after) = inr err.
Proof.
  intros He. induction before as [|e' before IH]; simpl.
  - rewrite He. by eexists.
  - destruct (ParseCIDR (Address e')) as [[ip n]|]; [|by eexists].
    destruct IH as [err ->]. by eexists.
Qed.

(** the IPs that come out are those of the entries, one for each, in the
    order of the entries *)
Lemma parse_addresses_sound entries : forall addrs,
  parse_addresses entries = inl addrs ->
  Forall2 (fun e ip => exists n, ParseCIDR (Address e) = Some (ip, n)) entries addrs.
Proof.
  induction entries as [|e entries IH]; intros addrs; simpl.
  - intros [= <-]. constructor.
  - destruct (ParseCIDR (Address e)) as [[ip n]|] eqn:He; [|done].
    destruct (parse_addresses entries) as [ips'|]; [|done].
    intros [= <-]. constructor; eauto.
Qed.

(** a result without IPs is an error, whatever else it holds *)
Lemma ips_missing raw :
  match raw with Some r => IPs r = [] | None => True end ->
  ips raw = inr ErrMissingIPs.
Proof. destruct raw as [r|]; simpl; [|done]. by intros ->. Qed.

(** a malformed address among the entries is an error *)
Lemma ips_malformed v ifs before e after :
  ParseCIDR (Address e) = None ->
  exists err,
    ips (Some {| CNIVersion := v; Interfaces := ifs; IPs := before ++ e :: after |})
    = inr err.
Proof.
  intros He. unfold ips. simpl.
  destruct (parse_addresses_malformed before e after He) as [err Herr].
  destruct (before ++ e :: after); by eexists.
Qed.

(** when [ips] succeeds the result has entries, every one of them is a
    CIDR text, and there is one IP for each, none of them without bytes *)
Lemma ips_sound raw addrs :
  ips raw = inl addrs ->
  exists r,
    raw = Some r /\ IPs r <> []
    /\ Forall2 (fun e ip => exists n, ParseCIDR (Address e) = Some (ip, n)) (IPs r) addrs
    /\ addrs <> []
    /\ Forall (fun ip => IP_len ip <> 0%nat) addrs.
Proof.
  destruct raw as [r|]; [|done]. unfold ips.
  destruct (IPs r) as [|e entries] eqn:Hr; [done|].
  intros Hp. apply (parse_addresses_sound (e :: entries)) in Hp. exists r.
  split; [done|]. split; [by rewrite Hr|]. split; [by rewrite Hr|]. split.
  - intros ->. by apply Forall2_nil_inv_r in Hp.
  - clear Hr. induction Hp as [|e' ip es ips' [n Hn] _ IH]; constructor; [|done].
    destruct (ParseCIDR_sound _ _ _ Hn) as [_ Hip].
    destruct ip; simpl; [done|]. by rewrite Hip.
Qed.

(** [Status] is [ips] of what is stored under "result" *)
Lemma PodStatus_stored s raw pid :
  PodStatus s {| Props := {| Data := {[ "result" := raw ]} |}; Pid := pid |}
  = match ips raw with
    | inl addrs => inl {| StatusIPs := addrs |}
    | inr err => inr err
    end.
Proof. unfold PodStatus. simpl. by rewrite lookup_singleton_eq. Qed.

(** C6: the addresses of a result are parsed as CIDR and the address
    portion is exposed, without the prefix: an entry whose address is
    four decimal bytes joined by dots, a slash and a prefix length of 32
    at most gives the IP with these four bytes, whose text is the four
    bytes in dotted decimal; so "10.22.0.64/16" exposes "10.22.0.64",
    through [ips] and through [Status].  A result whose list of IPs is
    empty is an error.  An entry whose address is not a CIDR text is an
    error, wherever it stands among the entries; "bar" is none, nor is
    "bar/16". *)
Theorem result_parsing :
  (forall v ifs sa sb sc sd sp a b c d p,
     reads sa a -> reads sb b -> reads sc c -> reads sd d -> reads sp p ->
     (a <= 255)%N -> (b <= 255)%N -> (c <= 255)%N -> (d <= 255)%N -> (p <= 32)%N ->
     ips (Some {| CNIVersion := v; Interfaces := ifs;
                  IPs := [address_only (dotted sa sb sc sd +:+ "/" +:+ sp)] |})
     = inl [IPv4 a b c d]
     /\ IP_String (IPv4 a b c d) = dotted (uitoa a) (uitoa b) (uitoa c) (uitoa d))
  /\ (forall a b c d p,
        (a <= 255)%N -> (b <= 255)%N -> (c <= 255)%N -> (d <= 255)%N -> (p <= 32)%N ->
        forall v ifs,
          ips (Some {| CNIVersion := v; Interfaces := ifs;
                       IPs := [address_only (IP_String (IPv4 a b c d)
                                             +:+ "/" +:+ uitoa p)] |})
          = inl [IPv4 a b c d])
  /\ (forall s v ifs,
        PodStatus s (stored (Some {| CNIVersion := v; Interfaces := ifs;
                                     IPs := [simple_entry] |}))
        = inl {| StatusIPs := [IPv4 10 22 0 64] |})
  /\ IP_String (IPv4 10 22 0 64) = "10.22.0.64"
  /\ (forall raw,
        match raw with Some r => IPs r = [] | None => True end ->
        ips raw = inr ErrMissingIPs)
  /\ (forall s raw,
        match raw with Some r => IPs r = [] | None => True end ->
        PodStatus s (stored raw) = inr ErrMissingIPs)
  /\ (forall v ifs before e after,
        ~ cidr_text (Address e) ->
        exists err,
          ips (Some {| CNIVersion := v; Interfaces := ifs;
                       IPs := before ++ e :: after |})
          = inr err)
  /\ (forall raw addrs,
        ips raw = inl addrs ->
        exists r, raw = Some r /\ Forall (fun e => cidr_text (Address e)) (IPs r))
  /\ ~ cidr_text "bar"
  /\ ~ cidr_text "bar/16"
  /\ (forall s v ifs,
        exists err,
          PodStatus s (stored (Some {| CNIVersion := v; Interfaces := ifs;
                                       IPs := [address_only "bar"] |}))
          = inr err).
Proof.
  assert (Hbar : ~ cidr_text "bar") by (by intros ?%cidr_text_slash).
  repeat apply conj.
  - intros v ifs sa sb sc sd sp a b c d p Ha Hb Hc Hd Hp Hna Hnb Hnc Hnd Hnp.
    split; [|done]. unfold ips. simpl.
    by rewrite (ParseCIDR_complete sa sb sc sd sp a b c d p).
  - intros a b c d p Hna Hnb Hnc Hnd Hnp v ifs.
    change (IP_String (IPv4 a b c d))
      with (dotted (uitoa a) (uitoa b) (uitoa c) (uitoa d)).
    unfold ips. simpl.
    by rewrite (ParseCIDR_complete (uitoa a) (uitoa b) (uitoa c) (uitoa d) (uitoa p)
                  a b c d p) by (auto using reads_uitoa; apply reads_uitoa; lia).
  - intros s v ifs. unfold stored. by rewrite PodStatus_stored.
  - done.
  - apply ips_missing.
  - intros s raw Hraw. unfold stored. by rewrite PodStatus_stored, ips_missing.
  - intros v ifs before e after He. by apply ips_malformed, ParseCIDR_malformed.
  - intros raw addrs (r & -> & _ & Hall & _)%ips_sound. exists r. split; [done|].
    induction Hall as [|e ip es ips' [n Hn] _ IH]; constructor; [|done].
    by destruct (ParseCIDR_sound _ _ _ Hn).
  - done.
  - intros Hs. destruct (cidr_text_address _ "bar" "16" Hs eq_refl)
      as [Hc|(c & addr' & [= <- <-] & Hd)]; done.
  - intros s v ifs. unfold stored. rewrite PodStatus_stored.
    assert (exists err,
               ips (Some {| CNIVersion := v; Interfaces := ifs;
                            IPs := [address_only "bar"] |}) = inr err)
      as [err ->]
      by exact (ips_malformed v ifs [] (address_only "bar") []
                  (ParseCIDR_malformed _ Hbar)).
    by eexists.
Qed.

End Parsing.

(** C8: [UpdateRuntimeConfig] of the CNI plugin, which cannot accept a
    dynamic CIDR, returns an error for every [podCIDR], absent and empty
    ones included: it is never a silent success. *)
Theorem UpdateRuntimeConfig_fails p podCIDR :
  UpdateRuntimeConfig p podCIDR = Some ErrNotImplemented
  /\ UpdateRuntimeConfig p None <> None
  /\ UpdateRuntimeConfig p (Some "") <> None.
Proof. done. Qed.

(** C9: for every pod ID, the runtime conf that [getCNIRuntimeConf]
    builds, and that a successful [PodNetwork] caches as its template,
    has container ID = pod ID, interface name "eth0" and an empty
    netns; its arguments are the extra ones supplied, so none when none
    are supplied. *)
Theorem runtime_conf_template p podID extraArgs s :
  PodNetwork p podID extraArgs = inl s ->
  getCNIRuntimeConf p podID
  = {| ContainerID := podID; NetNS := ""; IfName := "eth0"; Args := [] |}
  /\ ContainerID (runtimeConf s) = podID
  /\ IfName (runtimeConf s) = "eth0"
  /\ NetNS (runtimeConf s) = ""
  /\ Args (runtimeConf s) = extraArgs
  /\ (extraArgs = [] -> runtimeConf s = getCNIRuntimeConf p podID).
Proof.
  unfold PodNetwork. destruct (netConfig p) as [nl|]; [|done].
  intros [= <-]. simpl. repeat split. by intros ->.
Qed.

Section Actions.

Context {World : Type} `{!CNI World} `{!GoIPv6}.

(** the netns is filled in for the action only: CNI ADD sees it, the
    cached template keeps its own *)
Lemma setup_calls_add s netns w :
  setup s netns w
  = match AddNetworkList (netList s)
            {| ContainerID := ContainerID (runtimeConf s); NetNS := netns;
               IfName := IfName (runtimeConf s); Args := Args (runtimeConf s) |} w with
    | ((_, Some err), w1) => (inr err, w1)
    | ((result, None), w1) => (inl result, w1)
    end.
Proof. done. Qed.

(** C7: [WhenStarted] fails whenever the result of CNI ADD has no IP
    address, with the error of missing IPs.  When [WhenStarted] succeeds
    it has extracted at least one IP, none of them without bytes, and a
    [Status] on the properties it hands back succeeds and returns these
    very IPs. *)
Theorem WhenStarted_needs_IPs c prop w :
  (forall result w1,
     AddNetworkList (netList (pod c))
       {| ContainerID := ContainerID (runtimeConf (pod c));
          NetNS := "/proc/" +:+ uitoa (Pid prop) +:+ "/ns/net";
          IfName := IfName (runtimeConf (pod c));
          Args := Args (runtimeConf (pod c)) |} w
     = ((result, None), w1) ->
     match result with Some r => IPs r = [] | None => True end ->
     WhenStarted c prop w = (inr ErrMissingIPs, w1))
  /\ (forall res w1,
        WhenStarted c prop w = (inl res, w1) ->
        ResultIPs res <> []
        /\ Forall (fun ip => IP_len ip <> 0%nat) (ResultIPs res)
        /\ PodStatus (pod c)
             {| Props := {| Data := ResultData res |}; Pid := Pid prop |}
           = inl {| StatusIPs := ResultIPs res |}).
Proof.
  split.
  - intros result w1 Hadd Hnone. unfold WhenStarted.
    rewrite setup_calls_add, Hadd. by rewrite ips_missing.
  - intros res w1. unfold WhenStarted. rewrite setup_calls_add.
    destruct (AddNetworkList _ _ _) as [[result [err|]] w2]; [done|].
    destruct (ips result) as [addrs|err] eqn:Hips; [|done].
    intros [= <- <-]. simpl.
    destruct (ips_sound _ _ Hips) as (r & _ & _ & _ & Hne & Hlen).
    repeat apply conj; auto.
    by rewrite PodStatus_stored, Hips.
Qed.

End Actions.

(** the scenario of [Test_cniPodNetwork_setup]: ADD is called once, with
    the netns of the action *)
Example setup_fills_netns :
  setup testCNIPodNet "/proc/5/ns/net" newFake
  = (inl None,
     {| addNetworkListReturns := (None, None);
        delNetworkListReturns := None;
        addNetworkListArgs :=
          [(None, {| ContainerID := "foo"; NetNS := "/proc/5/ns/net";
                     IfName := "eth0"; Args := [] |})];
        delNetworkListArgs := [] |}).
Proof. reflexivity. Qed.

(** the scenario of [Test_cniPodNetwork_teardown_afterSetup]: DEL after
    ADD sees the template, whose netns is empty *)
Example teardown_after_setup :
  delNetworkListArgs
    (snd (teardown testCNIPodNet (snd (setup testCNIPodNet "/proc/5/ns/net" newFake))))
  = [(None, {| ContainerID := "foo"; NetNS := ""; IfName := "eth0"; Args := [] |})].
Proof. reflexivity. Qed.

(** the scenario of [Test_cniPodNetwork_ips_Missing]: an entry without an
    address *)
Example ips_entry_without_address :
  ips (Some {| CNIVersion := ""; Interfaces := []; IPs := [address_only ""] |})
  = inr ErrInvalidIP.
Proof. reflexivity. Qed.

(** the scenario of [Test_cniPodNetwork_Status_Missing] *)
Example Status_of_result_without_IPs :
  PodStatus testCNIPodNet
    (stored (Some {| CNIVersion := "0.4.0"; Interfaces := []; IPs := [] |}))
  = inr ErrMissingIPs.
Proof. reflexivity. Qed.

(** an IPv6 entry, with the stand-in parser *)
Example ips_loopback :
  ips (Some {| CNIVersion := "0.4.0"; Interfaces := [];
               IPs := [address_only "::1/128"; simple_entry] |})
  = inl [IPv6 loopback6; IPv4 10 22 0 64].
Proof. reflexivity. Qed.

(** the scenario of [Test_cniPodNetwork_ContainerNetwork] *)
Example ContainerNetwork_binds :
  ContainerNetwork testCNIPodNet "bar" = inl testCNIContNet.
Proof. reflexivity. Qed.

(** [PodNetwork("foo", nil)] of the test plugin *)
Lemma runtime_conf_template_witness :
  exists s,
    PodNetwork testCNIPlugin "foo" [] = inl s
    /\ runtimeConf s
       = {| ContainerID := "foo"; NetNS := ""; IfName := "eth0"; Args := [] |}.
Proof.
  eexists. split; [reflexivity|].
  destruct (runtime_conf_template testCNIPlugin "foo" [] _ eq_refl)
    as (Hconf & _ & _ & _ & _ & Hsame).
  rewrite Hsame by reflexivity. exact Hconf.
Defined.

(** CNI ADD for process 6 gives the address of the status test, and then
    no address at all *)
Lemma WhenStarted_needs_IPs_witness :
  (exists res fake,
     WhenStarted testCNIContNet {| Props := {| Data := ∅ |}; Pid := 6 |}
       (AddNetworkListReturns newFake
          (Some {| CNIVersion := "0.4.0"; Interfaces := []; IPs := [simple_entry] |})
          None)
     = (inl res, fake)
     /\ ResultIPs res = [IPv4 10 22 0 64]
     /\ PodStatus testCNIPodNet {| Props := {| Data := ResultData res |}; Pid := 6 |}
        = inl {| StatusIPs := ResultIPs res |})
  /\ (exists fake,
        WhenStarted testCNIContNet {| Props := {| Data := ∅ |}; Pid := 6 |}
          (AddNetworkListReturns newFake
             (Some {| CNIVersion := "4.0"; Interfaces := []; IPs := [] |}) None)
        = (inr ErrMissingIPs, fake)).
Proof.
  split.
  - eexists _, _. split; [reflexivity|]. split; [reflexivity|].
    eapply (WhenStarted_needs_IPs testCNIContNet
              {| Props := {| Data := ∅ |}; Pid := 6 |}
              (AddNetworkListReturns newFake
                 (Some {| CNIVersion := "0.4.0"; Interfaces := [];
                          IPs := [simple_entry] |})
                 None)).
    reflexivity.
  - eexists.
    eapply (WhenStarted_needs_IPs testCNIContNet
              {| Props := {| Data := ∅ |}; Pid := 6 |}
              (AddNetworkListReturns newFake
                 (Some {| CNIVersion := "4.0"; Interfaces := []; IPs := [] |})
                 None));
      [reflexivity|reflexivity].
Defined.

End NetworkSpec.

(** ** The manager client adapter: how a call of [StopContainer] ends, and
    the other operations *)
Module AdapterSpec.

Import GoInt GoIntFacts Lxo LxoOps StopContainerSpec.

Section Stop.

Context {World Operation : Type} `{!ContainerServer World Operation}.

Implicit Types (w : World) (fuel k : nat) (i timeout retries : Z).
Implicit Types (lastErr : option error) (id ETag : string).

(** a refused submission ends the loop: with success when the error is
    "not found", with the wrapped error otherwise *)
Lemma loop_refusal_ends fuel id timeout retries ETag i lastErr w k id' req ETag' err :
  events (StopContainer_loop fuel id timeout retries ETag i lastErr w) !! k
  = Some (EvUpdateContainerState id' req ETag' (inr err)) ->
  out (StopContainer_loop fuel id timeout retries ETag i lastErr w)
  = Returned (if String.eqb err not_found then None else Some (failed_to_stop id err))
  /\ length (events (StopContainer_loop fuel id timeout retries ETag i lastErr w)) = S k.
Proof.
  revert i lastErr w k.
  apply (loop_ind id timeout retries ETag (fun _ _ _ r => forall k,
    events r !! k = Some (EvUpdateContainerState id' req ETag' (inr err)) ->
    out r = Returned (if String.eqb err not_found then None
                      else Some (failed_to_stop id err))
    /\ length (events r) = S k)); simpl.
  - intros i lastErr w _ k Hk. discriminate.
  - intros i lastErr w _ k Hk. discriminate.
  - intros i lastErr w err' w1 _ _ [|k] Hk; simpl in Hk; [|discriminate].
    injection Hk as _ _ _ ->. by destruct (String.eqb err not_found).
  - intros i lastErr w op w1 err' w2 _ _ _ _ [|[|k]] Hk; discriminate.
  - intros i lastErr w op w1 err' w2 r _ _ _ _ IH [|[|k]] Hk; simpl in Hk;
      try discriminate.
    destruct (IH k Hk) as [-> ->]. done.
Qed.

(** what the loop returns is the verdict of the manager's last answer, or
    the last error it started with when nothing was asked *)
Lemma loop_verdict fuel id timeout retries ETag i lastErr w err :
  out (StopContainer_loop fuel id timeout retries ETag i lastErr w) = Returned err ->
  err = verdict id lastErr
          (events (StopContainer_loop fuel id timeout retries ETag i lastErr w)).
Proof.
  revert i lastErr w err.
  apply (loop_ind id timeout retries ETag (fun _ lastErr _ r => forall err,
    out r = Returned err -> err = verdict id lastErr (events r)));
    unfold verdict; simpl.
  - intros i lastErr w _ err [= <-]. done.
  - intros i lastErr w _ err Hout. discriminate.
  - intros i lastErr w err' w1 _ _ err Hout.
    destruct (String.eqb err' not_found); by injection Hout as <-.
  - intros i lastErr w op w1 err' w2 _ _ _ Hs err [= <-]. by rewrite Hs.
  - intros i lastErr w op w1 err' w2 r _ _ _ Hs IH err Hout.
    rewrite (IH err Hout). rewrite !last_cons.
    destruct (last (events r)); simpl; [done|]. by rewrite Hs.
Qed.

(** the trace of the loop: attempts that ran to completion, then at most
    one refused submission; every submission is a stop of the container
    with the timeout and the ETag of the call *)
Lemma loop_shape fuel id timeout retries ETag i lastErr w :
  exists attempts tail,
    events (StopContainer_loop fuel id timeout retries ETag i lastErr w)
    = attempts ++ tail
    /\ awaited attempts
    /\ (tail = []
        \/ exists req err, tail = [EvUpdateContainerState id req ETag (inr err)])
    /\ Forall (fun ev =>
         match ev with
         | EvUpdateContainerState id' req ETag' _ =>
             id' = id /\ ETag' = ETag /\ Action req = "stop" /\ Timeout req = timeout
         | EvWait _ _ => True
         end)
         (events (StopContainer_loop fuel id timeout retries ETag i lastErr w)).
Proof.
  revert i lastErr w.
  apply (loop_ind id timeout retries ETag (fun _ _ _ r =>
    exists attempts tail,
      events r = attempts ++ tail
      /\ awaited attempts
      /\ (tail = []
          \/ exists req err, tail = [EvUpdateContainerState id req ETag (inr err)])
      /\ Forall (fun ev =>
           match ev with
           | EvUpdateContainerState id' req ETag' _ =>
               id' = id /\ ETag' = ETag /\ Action req = "stop" /\ Timeout req = timeout
           | EvWait _ _ => True
           end) (events r))); simpl.
  - intros i lastErr w _. exists [], []. repeat apply conj; auto. constructor.
  - intros i lastErr w _. exists [], []. repeat apply conj; auto. constructor.
  - intros i lastErr w err w1 _ _.
    exists [], [EvUpdateContainerState id (request_at timeout retries i) ETag (inr err)].
    repeat apply conj; eauto; repeat constructor.
  - intros i lastErr w op w1 err w2 _ _ _ _.
    exists [EvUpdateContainerState id (request_at timeout retries i) ETag (inl op);
            EvWait op err], [].
    repeat apply conj; auto; repeat constructor.
  - intros i lastErr w op w1 err w2 r _ _ _ _ (attempts & tail & -> & Haw & Htail & Hall).
    exists (EvUpdateContainerState id (request_at timeout retries i) ETag (inl op)
            :: EvWait op err :: attempts), tail.
    repeat apply conj; auto; by repeat constructor.
Qed.

(** a loop that returned without asking anything had its counter past
    [retries]; one that returned after a completion other than "already
    stopped" made every attempt that was left *)
Lemma loop_plain_completion fuel id timeout retries ETag i lastErr w :
  retries < max_int ->
  min_int <= i <= retries + 1 ->
  forall err,
    out (StopContainer_loop fuel id timeout retries ETag i lastErr w) = Returned err ->
    (events (StopContainer_loop fuel id timeout retries ETag i lastErr w) = [] ->
     retries < i)
    /\ (forall op res,
          last (events (StopContainer_loop fuel id timeout retries ETag i lastErr w))
          = Some (EvWait op res) ->
          is_already_stopped res = false ->
          Z.of_nat (length (requests
            (events (StopContainer_loop fuel id timeout retries ETag i lastErr w))))
          = retries + 1 - i).
Proof.
  intros Hmax. revert i lastErr w.
  apply (loop_ind id timeout retries ETag (fun i _ _ r =>
    min_int <= i <= retries + 1 -> forall err,
    out r = Returned err ->
    (events r = [] -> retries < i)
    /\ (forall op res,
          last (events r) = Some (EvWait op res) ->
          is_already_stopped res = false ->
          Z.of_nat (length (requests (events r))) = retries + 1 - i))); simpl.
  - intros i lastErr w Hi Hr err _. split; [done|]. intros op res Hl. discriminate.
  - intros i lastErr w Hi Hr err Hout. discriminate.
  - intros i lastErr w err' w1 Hi _ Hr err _. split; [done|].
    intros op res Hl. discriminate.
  - intros i lastErr w op w1 err' w2 Hi _ _ Hs Hr err _. split; [done|].
    intros op' res [= _ <-] Hs'. congruence.
  - intros i lastErr w op w1 err' w2 r Hi _ _ Hs IH Hr err Hout.
    rewrite incr_below_max in IH by lia.
    destruct (IH ltac:(lia) err Hout) as [IHnil IHlast].
    split; [done|]. intros op' res Hl Hs'. rewrite !last_cons in Hl.
    destruct (last (events r)) as [ev'|] eqn:Hl'.
    + injection Hl as ->. specialize (IHlast _ _ eq_refl Hs'). lia.
    + apply last_None in Hl'. specialize (IHnil Hl'). rewrite Hl'. simpl. lia.
Qed.

(** more fuel does not change a call that returned *)
Lemma loop_more_fuel fuel id timeout retries ETag : forall i lastErr w fuel',
  out (StopContainer_loop fuel id timeout retries ETag i lastErr w) <> OutOfFuel ->
  (fuel <= fuel')%nat ->
  StopContainer_loop fuel' id timeout retries ETag i lastErr w
  = StopContainer_loop fuel id timeout retries ETag i lastErr w.
Proof.
  induction fuel as [|fuel IH]; intros i lastErr w fuel' Hout Hle;
    destruct (Z.leb_spec i retries) as [Hi|Hi];
    try (by rewrite !loop_exit by done).
  - by rewrite loop_no_fuel in Hout.
  - destruct fuel' as [|fuel']; [lia|].
    destruct (UpdateContainerState id (request_at timeout retries i) ETag w)
      as [[op|err] w1] eqn:Hu.
    + destruct (Wait op w1) as [err w2] eqn:Hw.
      destruct (is_already_stopped err) eqn:Hs.
      * by erewrite !loop_stopped by done.
      * erewrite loop_again in Hout by done.
        erewrite !loop_again by done. f_equal. apply IH; [done|lia].
    + by erewrite !loop_refused by done.
Qed.

(** the loop makes two calls per attempt at most *)
Lemma loop_calls_bounded fuel id timeout retries ETag i lastErr w :
  retries < max_int ->
  min_int <= i <= retries + 1 ->
  Z.of_nat (length (events (StopContainer_loop fuel id timeout retries ETag i lastErr w)))
  <= 2 * (retries + 1 - i).
Proof.
  intros Hmax. revert i lastErr w.
  apply (loop_ind id timeout retries ETag (fun i _ _ r =>
    min_int <= i <= retries + 1 ->
    Z.of_nat (length (events r)) <= 2 * (retries + 1 - i))); simpl; try lia.
  intros i lastErr w op w1 err w2 r Hi _ _ _ IH Hr.
  rewrite incr_below_max in IH by lia. specialize (IH ltac:(lia)). lia.
Qed.

(** X1: when the manager refuses a submission of the call with an error
    other than "not found", at whichever attempt, the call has returned
    that error wrapped as "failed to stop container <id>, <error>", and
    the refusal is the last event of the trace: nothing is awaited and no
    further attempt is made. *)
Theorem refusal_is_surfaced fuel id timeout retries w k id' req ETag' err :
  events (StopContainer fuel id timeout retries w) !! k
  = Some (EvUpdateContainerState id' req ETag' (inr err)) ->
  err <> not_found ->
  out (StopContainer fuel id timeout retries w)
  = Returned (Some (failed_to_stop id err))
  /\ length (events (StopContainer fuel id timeout retries w)) = S k.
Proof.
  intros Hk Hne. unfold StopContainer in *.
  destruct (loop_refusal_ends _ _ _ _ _ _ _ _ _ _ _ _ _ Hk) as [-> ->].
  by destruct (String.eqb_spec err not_found).
Qed.

(** X2: what a call returns depends on the manager's last answer alone:
    it is [nil] when nothing was asked, when the last answer refused the
    submission as "not found" or completed as "already stopped"; the
    wrapped error of any other refusal; and otherwise the last
    completion as it is.  Errors of earlier attempts are forgotten. *)
Theorem result_is_verdict_of_last_answer fuel id timeout retries w err :
  out (StopContainer fuel id timeout retries w) = Returned err ->
  err = verdict id None (events (StopContainer fuel id timeout retries w)).
Proof. apply loop_verdict. Qed.

(** X3: the trace of a call is a series of attempts that ran to
    completion, each an accepted submission followed at once by the wait
    for the very operation it handed out, then at most one refused
    submission, which ends the trace; and every submission is a stop of
    the given container with the given timeout and an empty ETag,
    whatever [retries] and the fuel. *)
Theorem trace_shape fuel id timeout retries w :
  exists attempts tail,
    events (StopContainer fuel id timeout retries w) = attempts ++ tail
    /\ awaited attempts
    /\ (tail = [] \/ exists req err, tail = [EvUpdateContainerState id req "" (inr err)])
    /\ Forall (stop_of id timeout) (events (StopContainer fuel id timeout retries w)).
Proof.
  unfold StopContainer.
  destruct (loop_shape fuel id timeout retries "" 1 None w)
    as (attempts & tail & Hev & Haw & Htail & Hall).
  exists attempts, tail. repeat apply conj; done.
Qed.

(** X4, for [retries] from 1 up to, but excluding, the largest [int]: when
    a call returned and the manager's last answer is a completion other
    than "already stopped" (without error, or with one), the call
    returned that completion, and it did so only after all [retries]
    attempts: the last request is the forced one. *)
Theorem plain_completion_ends_only_last_attempt fuel id timeout retries w err op res :
  1 <= retries < max_int ->
  out (StopContainer fuel id timeout retries w) = Returned err ->
  last (events (StopContainer fuel id timeout retries w)) = Some (EvWait op res) ->
  is_already_stopped res = false ->
  err = res
  /\ Z.of_nat (length (requests (events (StopContainer fuel id timeout retries w))))
     = retries
  /\ last (requests (events (StopContainer fuel id timeout retries w)))
     = Some (id, {| Action := "stop"; Timeout := timeout; Force := true |}, "").
Proof.
  intros Hr Hout Hlast Hs. unfold StopContainer in *.
  assert (Hlen : Z.of_nat (length (requests
            (events (StopContainer_loop fuel id timeout retries "" 1 None w))))
          = retries).
  { destruct (loop_plain_completion fuel id timeout retries "" 1 None w
                ltac:(lia) ltac:(rewrite min_int_val; lia) err Hout) as [_ Hall].
    rewrite (Hall _ _ Hlast Hs). lia. }
  repeat apply conj; [|done|].
  - rewrite (loop_verdict _ _ _ _ _ _ _ _ _ Hout). unfold verdict.
    rewrite Hlast. simpl. by rewrite Hs.
  - rewrite last_lookup.
    destruct (requests _ !! _) as [[[id' req] ETag']|] eqn:Hk.
    + destruct (loop_requests fuel id timeout retries "" 1 None w
                  ltac:(lia) ltac:(rewrite min_int_val; lia)) as [_ Hreq].
      destruct (Hreq _ _ _ _ Hk) as (Hid & HETag & Ha & Ht & Hf).
      destruct req as [a t f]. simpl in Ha, Ht, Hf. subst id' ETag' a t f.
      match goal with
      | |- context [?a =? ?b] =>
          replace (a =? b) with true by (symmetry; apply Z.eqb_eq; lia)
      end.
      done.
    + apply lookup_ge_None in Hk. lia.
Qed.

(** X5, for [retries] below the largest [int]: with fuel for [retries]
    attempts the call returns, whatever the manager answers, after two
    calls to the manager per attempt at most; and with more fuel the run
    is the same. *)
Theorem StopContainer_ends fuel id timeout retries w :
  retries < max_int ->
  (Z.to_nat retries <= fuel)%nat ->
  (exists err, out (StopContainer fuel id timeout retries w) = Returned err)
  /\ Z.of_nat (length (events (StopContainer fuel id timeout retries w)))
     <= 2 * Z.max 0 retries
  /\ forall fuel', (fuel <= fuel')%nat ->
       StopContainer fuel' id timeout retries w
       = StopContainer fuel id timeout retries w.
Proof.
  intros Hr Hfuel. unfold StopContainer.
  destruct (loop_returns fuel id timeout retries "" 1 None w Hr) as [err Herr];
    [rewrite min_int_val; lia | by replace (retries + 1 - 1) with retries by lia |].
  repeat apply conj; [by exists err| |].
  - destruct (Z.leb_spec 1 retries) as [Hle|Hgt].
    + pose proof (loop_calls_bounded fuel id timeout retries "" 1 None w Hr
                    ltac:(rewrite min_int_val; lia)). lia.
    + rewrite loop_exit by lia. simpl. lia.
  - intros fuel' Hle. apply loop_more_fuel; [congruence|done].
Qed.

End Stop.

(** the container is refused at the second of three attempts *)
Lemma refusal_is_surfaced_witness :
  events (StopContainer 3 "c1" 30 3
            [Accept (Some still_running); Refuse "permission denied"]) !! 2%nat
  = Some (EvUpdateContainerState "c1"
            {| Action := "stop"; Timeout := 30; Force := false |} ""
            (inr "permission denied"))
  /\ out (StopContainer 3 "c1" 30 3
            [Accept (Some still_running); Refuse "permission denied"])
     = Returned (Some "failed to stop container c1, permission denied")
  /\ length (events (StopContainer 3 "c1" 30 3
                       [Accept (Some still_running); Refuse "permission denied"]))
     = 3%nat.
Proof.
  split; [reflexivity|].
  apply (refusal_is_surfaced 3 "c1" 30 3
           [Accept (Some still_running); Refuse "permission denied"] 2 "c1"
           {| Action := "stop"; Timeout := 30; Force := false |} ""
           "permission denied").
  - reflexivity.
  - discriminate.
Defined.

(** the first attempt fails, the second and last completes without error:
    the earlier error is forgotten *)
Lemma result_is_verdict_of_last_answer_witness :
  out (StopContainer 2 "c1" 30 2 [Accept (Some still_running); Accept None])
  = Returned None
  /\ None = verdict "c1" None
              (events (StopContainer 2 "c1" 30 2
                         [Accept (Some still_running); Accept None])).
Proof.
  split; [reflexivity|].
  apply (result_is_verdict_of_last_answer 2 "c1" 30 2
           [Accept (Some still_running); Accept None] None).
  reflexivity.
Defined.

(** two attempts, both completing with an error *)
Lemma plain_completion_ends_only_last_attempt_witness :
  Some "second" = Some "second"
  /\ Z.of_nat (length (requests (events
       (StopContainer 2 "c1" 30 2 [Accept (Some "first"); Accept (Some "second")]))))
     = 2
  /\ last (requests (events
       (StopContainer 2 "c1" 30 2 [Accept (Some "first"); Accept (Some "second")])))
     = Some ("c1", {| Action := "stop"; Timeout := 30; Force := true |}, "").
Proof.
  apply (plain_completion_ends_only_last_attempt 2 "c1" 30 2
           [Accept (Some "first"); Accept (Some "second")]
           (Some "second") (Some "second") (Some "second")).
  - rewrite max_int_val. lia.
  - reflexivity.
  - reflexivity.
  - reflexivity.
Defined.

(** three attempts at most against a stubborn container *)
Lemma StopContainer_ends_witness :
  (exists err, out (StopContainer 3 "c1" 30 3 one_stubborn) = Returned err)
  /\ Z.of_nat (length (events (StopContainer 3 "c1" 30 3 one_stubborn)))
     <= 2 * Z.max 0 3
  /\ forall fuel', (3 <= fuel')%nat ->
       StopContainer fuel' "c1" 30 3 one_stubborn
       = StopContainer 3 "c1" 30 3 one_stubborn.
Proof.
  apply (StopContainer_ends 3 "c1" 30 3 one_stubborn).
  - rewrite max_int_val. lia.
  - simpl. lia.
Defined.

(** *** The submit-and-wait operations and series of calls *)
Section Operations.

Context {World Operation ContainersPost ContainerPut ContainerExecPost ContainerExecArgs : Type}.
Context `{!ContainerServer World Operation}.
Context `{!ContainerOps World Operation
             ContainersPost ContainerPut ContainerExecPost ContainerExecArgs}.

Implicit Types (w : World) (id ETag : string).

Let Call : Type :=
  call Operation ContainersPost ContainerPut ContainerExecPost ContainerExecArgs.
Let Command : Type :=
  command ContainersPost ContainerPut ContainerExecPost ContainerExecArgs.

Lemma lockstep_app (tr1 tr2 : list Call) :
  lockstep tr1 -> lockstep tr2 -> lockstep (tr1 ++ tr2).
Proof.
  induction 1 as [|c tr Hw Hc _ IH|c op res tr Hc _ IH]; intros H2; simpl.
  - done.
  - apply lockstep_refused; auto.
  - apply lockstep_awaited; auto.
Qed.

(** the calls of [StopContainer] go in lockstep *)
Lemma StopContainer_lockstep fuel id timeout retries ETag i lastErr w :
  lockstep ((call_of_event
    <$> events (StopContainer_loop fuel id timeout retries ETag i lastErr w))
    : list Call).
Proof.
  revert i lastErr w.
  apply (loop_ind id timeout retries ETag (fun _ _ _ r =>
    lockstep ((call_of_event <$> events r) : list Call))); simpl.
  - intros. constructor.
  - intros. constructor.
  - intros. apply lockstep_refused; [done|done|constructor].
  - intros. apply lockstep_awaited; [done|constructor].
  - intros i lastErr w op w1 err w2 r _ _ _ _ IH.
    by apply lockstep_awaited.
Qed.

Lemma run_command_lockstep fuel (cmd : Command) w :
  lockstep (run_command fuel cmd w).1.
Proof.
  destruct cmd as [id timeout retries|id|created|id updated ETag|id|id e args]; simpl.
  - apply StopContainer_lockstep.
  - unfold StartContainer.
    destruct (UpdateContainerState _ _ _ _) as [[op|err] w1]; simpl.
    + destruct (Wait op w1) as [res w2]; simpl.
      apply lockstep_awaited; [done|constructor].
    + apply lockstep_refused; [done|done|constructor].
  - unfold CreateContainer.
    destruct (server_CreateContainer _ _) as [[op|err] w1]; simpl.
    + destruct (Wait op w1) as [res w2]; simpl.
      apply lockstep_awaited; [done|constructor].
    + apply lockstep_refused; [done|done|constructor].
  - unfold UpdateContainer.
    destruct (server_UpdateContainer _ _ _ _) as [[op|err] w1]; simpl.
    + destruct (Wait op w1) as [res w2]; simpl.
      apply lockstep_awaited; [done|constructor].
    + apply lockstep_refused; [done|done|constructor].
  - unfold DeleteContainer.
    destruct (server_DeleteContainer _ _) as [[op|err] w1]; simpl.
    + destruct (Wait op w1) as [res w2]; simpl.
      apply lockstep_awaited; [done|constructor].
    + apply lockstep_refused; [done|done|constructor].
  - unfold ExecContainer.
    destruct (server_ExecContainer _ _ _ _) as [[op|[op err]] w1]; simpl.
    + destruct (Wait op w1) as [res w2]; simpl.
      apply lockstep_awaited; [done|constructor].
    + apply lockstep_refused; [done|done|constructor].
Qed.

Lemma run_commands_lockstep fuel (cmds : list Command) w :
  lockstep (run_commands fuel cmds w).1.
Proof.
  revert w. induction cmds as [|cmd cmds IH]; intros w; simpl.
  - constructor.
  - pose proof (run_command_lockstep fuel cmd w) as Hcmd.
    destruct (run_command fuel cmd w) as [tr w1].
    specialize (IH w1). destruct (run_commands fuel cmds w1) as [tr' w2].
    by apply lockstep_app.
Qed.

(** in a trace in lockstep, a submission answered without an error is
    followed by the wait for its operation *)
Lemma lockstep_accepted (tr : list Call) :
  lockstep tr -> forall k c op,
  tr !! k = Some c -> accepted c = Some op ->
  exists res, tr !! S k = Some (CallWait op res).
Proof.
  induction 1 as [|c' tr Hw Hc _ IH|c' op' res' tr Hc _ IH]; intros k c op Hk Hop.
  - done.
  - destruct k as [|k]; simpl in *.
    + injection Hk as ->. congruence.
    + eauto.
  - destruct k as [|[|k]]; simpl in *.
    + injection Hk as ->. exists res'. rewrite Hc in Hop. by injection Hop as ->.
    + by injection Hk as <-.
    + eauto.
Qed.

(** in a trace in lockstep, a wait comes right after the submission that
    handed out its operation *)
Lemma lockstep_wait (tr : list Call) :
  lockstep tr -> forall k op res,
  tr !! k = Some (CallWait op res) ->
  exists j c, k = S j /\ tr !! j = Some c /\ accepted c = Some op.
Proof.
  induction 1 as [|c' tr Hw Hc _ IH|c' op' res' tr Hc _ IH]; intros k op res Hk.
  - done.
  - destruct k as [|k]; simpl in *.
    + by injection Hk as ->.
    + destruct (IH _ _ _ Hk) as (j & c & -> & Hj & Hop). by exists (S j), c.
  - destruct k as [|[|k]]; simpl in *.
    + injection Hk as ->. done.
    + injection Hk as -> _. by exists 0%nat, c'.
    + destruct (IH _ _ _ Hk) as (j & c & -> & Hj & Hop). by exists (S (S j)), c.
Qed.

(** X8: the adapter awaits what the manager accepts, at once, and
    nothing else.  Whatever series of operations a caller runs
    ([StopContainer], [StartContainer], [CreateContainer],
    [UpdateContainer], [DeleteContainer], [ExecContainer]), with any
    arguments and against any manager, in the trace of the whole series:
    a submission that the manager answers without an error is followed at
    once by the wait for the operation it handed out; a wait comes right
    after the submission that handed out its operation; and no wait
    follows a submission answered with an error, so that the operation
    that may come with the error of an [ExecContainer] is not awaited by
    the adapter. *)
Theorem adapter_awaits_what_is_accepted fuel (cmds : list Command) w :
  (forall k c op,
     (run_commands fuel cmds w).1 !! k = Some c -> accepted c = Some op ->
     exists res, (run_commands fuel cmds w).1 !! S k = Some (CallWait op res))
  /\ (forall k op res,
        (run_commands fuel cmds w).1 !! k = Some (CallWait op res) ->
        exists j c,
          k = S j /\ (run_commands fuel cmds w).1 !! j = Some c
          /\ accepted c = Some op)
  /\ (forall k c op res,
        (run_commands fuel cmds w).1 !! k = Some c -> accepted c = None ->
        (run_commands fuel cmds w).1 !! S k <> Some (CallWait op res)).
Proof.
  pose proof (run_commands_lockstep fuel cmds w) as Hl.
  split; [|split].
  - by apply lockstep_accepted.
  - by apply lockstep_wait.
  - intros k c op res Hk Hnone Hwait.
    destruct (lockstep_wait _ Hl _ _ _ Hwait) as (j & c' & [= <-] & Hj & Hop).
    pose proof (eq_trans (eq_sym Hk) Hj) as [= <-]. by rewrite Hnone in Hop.
Qed.

End Operations.

(** deleting a container that is gone is an error, where stopping it is
    not *)
Example DeleteContainer_of_missing_container :
  shot_err (DeleteContainer "gone" [Refuse not_found]) = Some not_found
  /\ out (StopContainer 1 "gone" 30 1 [Refuse not_found]) = Returned None.
Proof. split; reflexivity. Qed.

(** create, start, a stop that needs two attempts, delete *)
Example a_container_life :
  (run_commands 3
     [CmdCreateContainer "c1"; CmdStartContainer "c1";
      CmdStopContainer "c1" 30 3; CmdDeleteContainer "c1"]
     [Accept None; Accept None; Accept (Some still_running);
      Accept (Some already_stopped); Accept None]).2
  = [].
Proof. reflexivity. Qed.

End AdapterSpec.
